(** * Estúdio de Estilos: generation service and orchestrator

    A shallow embedding of [services/geminiService.ts] (data-URL parsing,
    response extraction, the retrying transport call, the two-tier
    generation client and the remix client) and of the orchestration
    handlers of the [App] component ([handleGenerate],
    [handleRegenerateDecade], [handleRemixDecade], [handleReset],
    [handleImageUpload]), followed by the properties established for them.

    Conventions.
    - A JavaScript string is the list of its UTF-16 code units ([list N]).
      String literals of the source are written as they appear there and
      converted by [js].
    - A promise settles either fulfilled with a value or rejected with a
      thrown value ([Settled]).
    - The remote service is an oracle threaded through the calls; every
      transport call settles (the source has no timeout of its own).
    - A thrown value is either an [Error] object or some other value that
      [JSON.stringify] and [String] both render as text. *)

From Stdlib Require Import NArith Ascii String.
From stdpp Require Import base option list gmap.

Local Open Scope N_scope.

(** ** JavaScript strings *)

Abbreviation jsstring := (list N) (only parsing).

(** Code units of a UTF-8 encoded literal (the encoding of this file). *)
Fixpoint utf16 (bs : list N) : list N :=
  match bs with
  | [] => []
  | b0 :: r0 =>
      if b0 <? 128 then b0 :: utf16 r0
      else
        match r0 with
        | [] => [b0]
        | b1 :: r1 =>
            if b0 <? 224 then ((b0 mod 32) * 64 + b1 mod 64) :: utf16 r1
            else
              match r1 with
              | [] => [b0; b1]
              | b2 :: r2 =>
                  if b0 <? 240
                  then ((b0 mod 16) * 4096 + (b1 mod 64) * 64 + b2 mod 64) :: utf16 r2
                  else
                    match r2 with
                    | [] => [b0; b1; b2]
                    | b3 :: r3 =>
                        let cp := (b0 mod 8) * 262144 + (b1 mod 64) * 4096
                                  + (b2 mod 64) * 64 + b3 mod 64 in
                        let v := cp - 65536 in
                        (55296 + v / 1024) :: (56320 + v mod 1024) :: utf16 r3
                    end
              end
        end
  end.

Definition js (s : string) : jsstring :=
  utf16 (map N_of_ascii (list_ascii_of_string s)).

Arguments js : simpl never.

(** The double-quote character, U+0022. *)
Definition dquote : jsstring := [34].

(** [s.startsWith(p)] *)
Fixpoint startsWith (p s : jsstring) : bool :=
  match p, s with
  | [], _ => true
  | _ :: _, [] => false
  | a :: p', b :: s' => (a =? b) && startsWith p' s'
  end.

(** [s.includes(search)] *)
Fixpoint includes (s search : jsstring) : bool :=
  startsWith search s
  || match s with
     | [] => false
     | _ :: s' => includes s' search
     end.

(** Truthiness of a string: only the empty string is falsy. *)
Definition truthy (s : jsstring) : bool :=
  match s with [] => false | _ :: _ => true end.


(** ** Thrown values and settled promises *)

Inductive Thrown : Type :=
| ErrorObj (message : jsstring)
| NonError (json : jsstring) (str : jsstring).

Inductive Settled (A : Type) : Type :=
| Fulfilled (a : A)
| Rejected (e : Thrown).
Arguments Fulfilled {A} a.
Arguments Rejected {A} e.

(** [error instanceof Error ? error.message : JSON.stringify(error)] *)
Definition messageOrJson (e : Thrown) : jsstring :=
  match e with
  | ErrorObj m => m
  | NonError j _ => j
  end.

(** [error instanceof Error ? error.message : String(error)] *)
Definition messageOrString (e : Thrown) : jsstring :=
  match e with
  | ErrorObj m => m
  | NonError _ s => s
  end.

(** ** Requests and responses of the remote model *)

Inductive RequestPart : Type :=
| InlineDataPart (mimeType data : jsstring)
| TextPart (text : jsstring).

Record Request : Type := MkRequest {
  model : jsstring;
  parts : list RequestPart
}.

Record Blob : Type := MkBlob {
  mimeType : jsstring;
  data : jsstring
}.

Record ResponsePart : Type := MkPart {
  inlineData : option Blob
}.

(** [candidateParts] is [response.candidates?.[0]?.content?.parts];
    [text] is the [response.text] accessor. *)
Record GenerateContentResponse : Type := MkResponse {
  candidateParts : option (list ResponsePart);
  text : option jsstring
}.

(** ** Helper functions of the service *)

Definition getFallbackPrompt (hairstyle gender : jsstring) : jsstring :=
  js "Crie uma fotografia da pessoa nesta imagem com um penteado "
  ++ gender ++ js " moderno " ++ hairstyle
  ++ js ". A fotografia deve mostrar claramente o penteado e ter um aspeto autêntico e de alta qualidade.".

Definition noImagePhrase : jsstring :=
  js "O modelo de IA respondeu com texto em vez de uma imagem".

(** [textResponse || 'Nenhuma resposta de texto recebida.'] *)
Definition textOrDefault (t : option jsstring) : jsstring :=
  match t with
  | Some s => if truthy s then s else js "Nenhuma resposta de texto recebida."
  | None => js "Nenhuma resposta de texto recebida."
  end.

Definition noImageError (t : option jsstring) : Thrown :=
  ErrorObj (noImagePhrase ++ js ": " ++ dquote ++ textOrDefault t ++ dquote).

(** The composition of a data URL, as in the template literal
    [`data:${mimeType};base64,${data}`]. *)
Definition encode (mimeType data : jsstring) : jsstring :=
  js "data:" ++ mimeType ++ js ";base64," ++ data.

Definition hasInlineData (p : ResponsePart) : bool :=
  match inlineData p with Some _ => true | None => false end.

Definition processGeminiResponse (response : GenerateContentResponse)
  : Settled jsstring :=
  let imagePartFromResponse :=
    match candidateParts response with
    | Some ps => find hasInlineData ps
    | None => None
    end in
  match imagePartFromResponse with
  | Some {| inlineData := Some b |} => Fulfilled (encode (mimeType b) (data b))
  | _ => Rejected (noImageError (text response))
  end.

(** ** The data-URL pattern

    The regular expression of the source is anchored at both ends and
    reads: the literal [data:], group 1 = the literal [image/] followed by
    one or more [\w], the literal [;base64,], group 2 = zero or more [.]
    up to the end of the input. *)

(** [\w] without flags: [A-Za-z0-9_]. *)
Definition isWordChar (c : N) : bool :=
  ((48 <=? c) && (c <=? 57)) || ((65 <=? c) && (c <=? 90))
  || (c =? 95) || ((97 <=? c) && (c <=? 122)).

(** [.] without the [s] flag matches everything but line terminators. *)
Definition isLineTerminator (c : N) : bool :=
  (c =? 10) || (c =? 13) || (c =? 8232) || (c =? 8233).

Fixpoint stripPrefix (p s : jsstring) : option jsstring :=
  match p, s with
  | [], _ => Some s
  | _ :: _, [] => None
  | a :: p', b :: s' => if a =? b then stripPrefix p' s' else None
  end.

(** The greedy run of [\w]; no shorter run can be followed by [;]. *)
Fixpoint spanWord (s : jsstring) : jsstring * jsstring :=
  match s with
  | [] => ([], [])
  | c :: s' =>
      if isWordChar c
      then let '(w, r) := spanWord s' in (c :: w, r)
      else ([], s)
  end.

(** [imageDataUrl.match(...)]: the two capture groups, if the match
    succeeds. *)
Definition matchDataUrl (imageDataUrl : jsstring)
  : option (jsstring * jsstring) :=
  match stripPrefix (js "data:") imageDataUrl with
  | None => None
  | Some r0 =>
      match stripPrefix (js "image/") r0 with
      | None => None
      | Some r1 =>
          match spanWord r1 with
          | ([], _) => None
          | (w, r2) =>
              match stripPrefix (js ";base64,") r2 with
              | None => None
              | Some r3 =>
                  if forallb (fun c => negb (isLineTerminator c)) r3
                  then Some (js "image/" ++ w, r3)
                  else None
              end
          end
      end
  end.

Definition invalidImageFormat : Thrown :=
  ErrorObj (js "Formato de URL de dados de imagem inválido. Esperado 'data:image/...;base64,...'").

(** ** Effects of the service: transport calls and backoff delays *)

Inductive Effect : Type :=
| Call (req : Request)   (* ai.models.generateContent(req) *)
| Sleep (ms : N).        (* setTimeout(resolve, ms) *)

Definition maxRetries : N := 3.
Definition initialDelay : N := 1000.

(** ['"code":500'] and ['INTERNAL'] *)
Definition isInternalError (errorMessage : jsstring) : bool :=
  includes errorMessage (dquote ++ js "code" ++ dquote ++ js ":500")
  || includes errorMessage (js "INTERNAL").

Definition isNoImageError (errorMessage : jsstring) : bool :=
  includes errorMessage noImagePhrase.

Definition modelRequest (imagePart textPart : RequestPart) : Request :=
  {| model := js "gemini-2.5-flash-image-preview";
     parts := [imagePart; textPart] |}.

Section Service.

(** The remote service: each call consumes the current state of the
    world and settles. *)
Context {W : Type}.
Variable generateContent :
  Request -> W -> Settled GenerateContentResponse * W.

Record St : Type := MkSt {
  world : W;
  trace : list Effect
}.

(** Computations of the service: state passing with rejection. *)
Definition M (A : Type) : Type := St -> Settled A * St.

Definition throw {A} (e : Thrown) : M A := fun st => (Rejected e, st).

Definition settle {A} (r : Settled A) : M A := fun st => (r, st).

Definition bind {A B} (m : M A) (k : A -> M B) : M B :=
  fun st =>
    match m st with
    | (Fulfilled a, st') => k a st'
    | (Rejected e, st') => (Rejected e, st')
    end.

Definition tryCatch {A} (m : M A) (handler : Thrown -> M A) : M A :=
  fun st =>
    match m st with
    | (Fulfilled a, st') => (Fulfilled a, st')
    | (Rejected e, st') => handler e st'
    end.

Notation "'await' x <~ m ;; k" := (bind m (fun x => k))
  (at level 10, x name, m at level 99, k at level 200, only parsing).

Definition awaitGenerateContent (req : Request) : M GenerateContentResponse :=
  fun st =>
    let '(r, w') := generateContent req (world st) in
    (r, {| world := w'; trace := trace st ++ [Call req] |}).

Definition awaitTimeout (ms : N) : M unit :=
  fun st => (Fulfilled tt, {| world := world st; trace := trace st ++ [Sleep ms] |}).

(** The [for] loop of [callGeminiWithRetry]; [fuel] is the number of
    iterations left, [maxRetries - attempt + 1]. *)
Fixpoint retryLoop (fuel : nat) (attempt : N) (imagePart textPart : RequestPart)
  : M GenerateContentResponse :=
  match fuel with
  | O =>
      throw (ErrorObj (js "A chamada à API Gemini falhou após todas as tentativas."))
  | S fuel' =>
      tryCatch
        (awaitGenerateContent (modelRequest imagePart textPart))
        (fun error =>
           let errorMessage := messageOrJson error in
           if isInternalError errorMessage && (attempt <? maxRetries)
           then
             let delay := initialDelay * 2 ^ (attempt - 1) in
             await _ <~ awaitTimeout delay ;;
             retryLoop fuel' (attempt + 1) imagePart textPart
           else throw error)
  end.

Definition callGeminiWithRetry (imagePart textPart : RequestPart)
  : M GenerateContentResponse :=
  retryLoop (N.to_nat maxRetries) 1 imagePart textPart.

Definition remixImage (imageDataUrl prompt : jsstring) : M jsstring :=
  match matchDataUrl imageDataUrl with
  | None => throw invalidImageFormat
  | Some (mimeType, base64Data) =>
      let imagePart := InlineDataPart mimeType base64Data in
      let textPart := TextPart prompt in
      tryCatch
        (await response <~ callGeminiWithRetry imagePart textPart ;;
         settle (processGeminiResponse response))
        (fun error =>
           let errorMessage := messageOrJson error in
           throw (ErrorObj
                    (js "O modelo de IA falhou ao modificar a imagem. Detalhes: "
                     ++ errorMessage)))
  end.

Definition generateDecadeImage (imageDataUrl prompt hairstyle gender : jsstring)
  : M jsstring :=
  match matchDataUrl imageDataUrl with
  | None => throw invalidImageFormat
  | Some (mimeType, base64Data) =>
      let imagePart := InlineDataPart mimeType base64Data in
      tryCatch
        (let textPart := TextPart prompt in
         await response <~ callGeminiWithRetry imagePart textPart ;;
         settle (processGeminiResponse response))
        (fun error =>
           let errorMessage := messageOrJson error in
           if isNoImageError errorMessage
           then
             if negb (truthy hairstyle) || negb (truthy gender)
             then throw error
             else
               tryCatch
                 (let fallbackPrompt := getFallbackPrompt hairstyle gender in
                  let fallbackTextPart := TextPart fallbackPrompt in
                  await fallbackResponse <~ callGeminiWithRetry imagePart fallbackTextPart ;;
                  settle (processGeminiResponse fallbackResponse))
                 (fun fallbackError =>
                    let finalErrorMessage := messageOrString fallbackError in
                    throw (ErrorObj
                             (js "O modelo de IA falhou com os prompts original e de recurso. Último erro: "
                              ++ finalErrorMessage)))
           else
             throw (ErrorObj
                      (js "O modelo de IA não conseguiu gerar uma imagem. Detalhes: "
                       ++ errorMessage)))
  end.

(** One attempt-group: the retrying transport call followed by the
    extraction of the image, as in the body of each [try] block. *)
Definition attemptGroup (imagePart textPart : RequestPart) : M jsstring :=
  await response <~ callGeminiWithRetry imagePart textPart ;;
  settle (processGeminiResponse response).

(** [k] successive transport calls with the same request. *)
Fixpoint transportRun (req : Request) (k : nat) (w : W)
  : list (Settled GenerateContentResponse) * W :=
  match k with
  | O => ([], w)
  | S k' =>
      let '(o, w1) := generateContent req w in
      let '(os, w2) := transportRun req k' w1 in
      (o :: os, w2)
  end.

End Service.

Arguments MkSt {W} world trace.
Arguments world {W} s.
Arguments trace {W} s.

(** The effects of [k] attempts, the first one numbered [attempt]: a call,
    then for each further attempt the backoff delay and a call. *)
Fixpoint backoffTrace (req : Request) (k : nat) (attempt : N) : list Effect :=
  match k with
  | O => []
  | S k' =>
      Call req ::
      match k' with
      | O => []
      | S _ => Sleep (1000 * 2 ^ (attempt - 1)) :: backoffTrace req k' (attempt + 1)
      end
  end.

(** A failure the retry loop classifies as transient. *)
Definition transient (o : Settled GenerateContentResponse) : bool :=
  match o with
  | Fulfilled _ => false
  | Rejected e => isInternalError (messageOrJson e)
  end.

(** A scripted remote service, for concrete runs: the world is the list of
    outcomes still to come; an exhausted script rejects. *)
Definition scripted (req : Request) (w : list (Settled GenerateContentResponse))
  : Settled GenerateContentResponse * list (Settled GenerateContentResponse) :=
  match w with
  | [] => (Rejected (ErrorObj (js "script exhausted")), [])
  | o :: w' => (o, w')
  end.

(** ** The orchestrator: state of the [App] component *)

Definition MALE_HAIRSTYLES : list jsstring :=
  [js "Corte Buzz (com Degradê)"; js "Undercut Desconectado"; js "Coque Samurai";
   js "Cabelo Médio Despenteado"; js "Tranças Nagô"; js "Cabelo Longo Ondulado"].

Definition FEMALE_HAIRSTYLES : list jsstring :=
  [js "Pixie Assimétrico"; js "Bob Francês (com Franja)"; js "Ondas de Sereia (Longo)";
   js "Coque Alto (Despenteado)"; js "Tranças Boxeadora"; js "Afro Volumoso"].

Inductive ImageStatus : Type := Pending | Done | Error.

Record GeneratedImage : Type := MkImage {
  status : ImageStatus;
  url : option jsstring;
  error : option jsstring
}.

Inductive AppState : Type := idle | image_uploaded | generating | results_shown.

Definition concurrencyLimit : nat := 2.

(** A worker of the pool, between two turns of the event loop: suspended
    at [await processHairstyle(hairstyle)], or returned. *)
Inductive Worker : Type :=
| Awaiting (hairstyle : jsstring)
| Finished.

(** An activation of [handleGenerate]: the values captured by its
    closures, the queue shared by its workers, and the workers. *)
Record Run : Type := MkRun {
  runImage : jsstring;
  runGender : jsstring;
  hairstyleQueue : list jsstring;
  workers : list Worker
}.

(** An activation of [handleRegenerateDecade] or [handleRemixDecade]
    suspended at its client call. *)
Inductive OneOff : Type :=
| Regenerating (hairstyle : jsstring)
| Remixing (hairstyle sourceImage : jsstring).

(** Calls to the two clients. *)
Inductive ClientCall : Type :=
| GenerateCall (imageDataUrl prompt hairstyle gender : jsstring)
| RemixCall (imageDataUrl prompt : jsstring).

(** The component state ([useState] cells), the suspended activations and
    the log of client calls issued so far. State updates are applied in
    the order they are requested, and a handler reads the cells as last
    written: a render separates its call from the update before it. The
    retry and remix handlers called from an older render are
    [handleRegenerateDecadeFrom] and [handleRemixDecadeFrom] below. *)
Record App : Type := MkApp {
  uploadedImage : option jsstring;
  generatedImages : gmap (list N) GeneratedImage;
  isLoading : bool;
  appState : AppState;
  selectedGender : option jsstring;
  runs : list Run;
  oneOffs : list OneOff;
  calls : list ClientCall
}.

Definition initialApp : App :=
  {| uploadedImage := None; generatedImages := ∅; isLoading := false;
     appState := idle; selectedGender := None;
     runs := []; oneOffs := []; calls := [] |}.

Definition pendingImage : GeneratedImage :=
  {| status := Pending; url := None; error := None |}.

Definition doneImage (resultUrl : jsstring) : GeneratedImage :=
  {| status := Done; url := Some resultUrl; error := None |}.

Definition errorImage (errorMessage : jsstring) : GeneratedImage :=
  {| status := Error; url := None; error := Some errorMessage |}.

(** [{ status: 'error', url: sourceImage, error: errorMessage }] *)
Definition remixErrorImage (sourceImage errorMessage : jsstring) : GeneratedImage :=
  {| status := Error; url := Some sourceImage; error := Some errorMessage |}.

(** [{ ...prev[hairstyle], status: 'pending' }] *)
Definition markPending (prev : option GeneratedImage) : GeneratedImage :=
  match prev with
  | Some it => {| status := Pending; url := url it; error := error it |}
  | None => pendingImage
  end.

(** [err instanceof Error ? err.message : "An unknown error occurred."] *)
Definition itemErrorMessage (err : Thrown) : jsstring :=
  match err with
  | ErrorObj m => m
  | NonError _ _ => js "An unknown error occurred."
  end.

Definition hairstylesFor (gender : jsstring) : list jsstring :=
  if bool_decide (gender = js "masculino") then MALE_HAIRSTYLES else FEMALE_HAIRSTYLES.

Definition genderTerm (gender : jsstring) : jsstring :=
  if bool_decide (gender = js "masculino") then js "masculino" else js "feminino".

Definition stylePrompt (gender hairstyle : jsstring) : jsstring :=
  js "Dê à pessoa nesta foto um penteado " ++ genderTerm gender
  ++ js " moderno '" ++ hairstyle
  ++ js "'. O resultado deve ser uma imagem fotorrealista, perfeita para uma consulta de barbearia, focando na mudança do penteado e preservando ao máximo as feições da pessoa.".

(** The call made by [processHairstyle] and by [handleRegenerateDecade]. *)
Definition generateCall (image gender hairstyle : jsstring) : ClientCall :=
  GenerateCall image (stylePrompt gender hairstyle) hairstyle gender.

(** The outcome of a generation written to the item, as in the two
    [setGeneratedImages] of [processHairstyle] and [handleRegenerateDecade]. *)
Definition generationResult (outcome : Settled jsstring) : GeneratedImage :=
  match outcome with
  | Fulfilled resultUrl => doneImage resultUrl
  | Rejected err => errorImage (itemErrorMessage err)
  end.

Definition remixResult (sourceImage : jsstring) (outcome : Settled jsstring)
  : GeneratedImage :=
  match outcome with
  | Fulfilled resultUrl => doneImage resultUrl
  | Rejected err => remixErrorImage sourceImage (itemErrorMessage err)
  end.

(** ** The worker pool of [handleGenerate] *)

(** A worker running from its loop head to its next suspension:
    [while (queue.length > 0) { h = queue.shift(); if (h) await ... }]. *)
Fixpoint workerLoop (queue : list jsstring) : Worker * list jsstring :=
  match queue with
  | [] => (Finished, [])
  | hairstyle :: queue' =>
      if truthy hairstyle then (Awaiting hairstyle, queue') else workerLoop queue'
  end.

(** [Array(n).fill(null).map(async () => ...)]: the workers are started one
    after the other, each running to its first suspension. *)
Fixpoint startWorkers (n : nat) (queue : list jsstring)
  : list Worker * list jsstring :=
  match n with
  | O => ([], queue)
  | S n' =>
      let '(w, queue1) := workerLoop queue in
      let '(ws, queue2) := startWorkers n' queue1 in
      (w :: ws, queue2)
  end.

Definition isFinished (w : Worker) : bool :=
  match w with Finished => true | Awaiting _ => false end.

(** The generation calls a list of workers is suspended at. *)
Definition awaited (ws : list Worker) : list jsstring :=
  omap (fun w => match w with Awaiting h => Some h | Finished => None end) ws.

Definition inFlight (r : Run) : nat := length (awaited (workers r)).

Definition settled (r : Run) : bool := forallb isFinished (workers r).

(** The continuation of [await Promise.all(workers)]. *)
Definition afterPromiseAll (r : Run) (s : App) : App :=
  if settled r
  then {| uploadedImage := uploadedImage s; generatedImages := generatedImages s;
          isLoading := false; appState := results_shown;
          selectedGender := selectedGender s;
          runs := runs s; oneOffs := oneOffs s; calls := calls s |}
  else s.

Definition handleGenerate (gender : jsstring) (s : App) : App :=
  match uploadedImage s with
  | None => s
  | Some image =>
      if negb (truthy image) then s
      else
        let hairstyles := hairstylesFor gender in
        let initialImages : gmap (list N) GeneratedImage :=
          foldl (fun acc hairstyle => <[hairstyle := pendingImage]> acc) ∅ hairstyles in
        let '(ws, queue) := startWorkers concurrencyLimit hairstyles in
        let r := {| runImage := image; runGender := gender;
                    hairstyleQueue := queue; workers := ws |} in
        afterPromiseAll r
          {| uploadedImage := uploadedImage s; generatedImages := initialImages;
             isLoading := true; appState := generating;
             selectedGender := Some gender;
             runs := runs s ++ [r]; oneOffs := oneOffs s;
             calls := calls s ++ map (generateCall image gender) (awaited ws) |}
  end.

(** The call awaited by worker [i] of run [r] settles: the item is
    written, the worker takes its next label or returns, and the run
    completes if that was the last worker. *)
Definition workerSettles (r i : nat) (outcome : Settled jsstring) (s : App)
  : option App :=
  match runs s !! r with
  | None => None
  | Some run =>
      match workers run !! i with
      | Some (Awaiting hairstyle) =>
          let '(w, queue') := workerLoop (hairstyleQueue run) in
          let run' := {| runImage := runImage run; runGender := runGender run;
                         hairstyleQueue := queue';
                         workers := <[i := w]> (workers run) |} in
          Some (afterPromiseAll run'
                  {| uploadedImage := uploadedImage s;
                     generatedImages :=
                       <[hairstyle := generationResult outcome]> (generatedImages s);
                     isLoading := isLoading s; appState := appState s;
                     selectedGender := selectedGender s;
                     runs := <[r := run']> (runs s); oneOffs := oneOffs s;
                     calls := calls s
                              ++ map (generateCall (runImage run) (runGender run))
                                     (awaited [w]) |})
      | _ => None
      end
  end.

(** ** Retry and remix of a single item *)

Definition isPending (it : option GeneratedImage) : bool :=
  match it with
  | Some {| status := Pending |} => true
  | _ => false
  end.

Definition handleRegenerateDecade (hairstyle : jsstring) (s : App) : App :=
  match uploadedImage s, selectedGender s with
  | Some image, Some gender =>
      if negb (truthy image) || negb (truthy gender) then s
      else if isPending (generatedImages s !! hairstyle) then s
      else
        {| uploadedImage := uploadedImage s;
           generatedImages := <[hairstyle := pendingImage]> (generatedImages s);
           isLoading := isLoading s; appState := appState s;
           selectedGender := selectedGender s;
           runs := runs s; oneOffs := oneOffs s ++ [Regenerating hairstyle];
           calls := calls s ++ [generateCall image gender hairstyle] |}
  | _, _ => s
  end.

Definition handleRemixDecade (hairstyle prompt : jsstring) (s : App) : App :=
  match generatedImages s !! hairstyle ≫= url with
  | None => s
  | Some sourceImage =>
      if negb (truthy sourceImage) || negb (truthy prompt) then s
      else if isPending (generatedImages s !! hairstyle) then s
      else
        {| uploadedImage := uploadedImage s;
           generatedImages :=
             <[hairstyle := markPending (generatedImages s !! hairstyle)]>
               (generatedImages s);
           isLoading := isLoading s; appState := appState s;
           selectedGender := selectedGender s;
           runs := runs s;
           oneOffs := oneOffs s ++ [Remixing hairstyle sourceImage];
           calls := calls s ++ [RemixCall sourceImage prompt] |}
  end.

(** The client call of one-off activation [i] settles. *)
Definition oneOffSettles (i : nat) (outcome : Settled jsstring) (s : App)
  : option App :=
  match oneOffs s !! i with
  | None => None
  | Some op =>
      let '(hairstyle, item) :=
        match op with
        | Regenerating hairstyle => (hairstyle, generationResult outcome)
        | Remixing hairstyle sourceImage => (hairstyle, remixResult sourceImage outcome)
        end in
      Some {| uploadedImage := uploadedImage s;
              generatedImages := <[hairstyle := item]> (generatedImages s);
              isLoading := isLoading s; appState := appState s;
              selectedGender := selectedGender s;
              runs := runs s; oneOffs := delete i (oneOffs s);
              calls := calls s |}
  end.

Definition handleReset (s : App) : App :=
  {| uploadedImage := None; generatedImages := ∅;
     isLoading := isLoading s; appState := idle; selectedGender := None;
     runs := runs s; oneOffs := oneOffs s; calls := calls s |}.

(** [reader.onloadend] of [handleImageUpload]. *)
Definition imageLoaded (result : jsstring) (s : App) : App :=
  {| uploadedImage := Some result; generatedImages := ∅;
     isLoading := isLoading s; appState := image_uploaded; selectedGender := None;
     runs := runs s; oneOffs := oneOffs s; calls := calls s |}.

(** ** Executions

    An event is a call of one of the handlers or the settlement of a
    client call in flight; the handlers can be called in any state. *)

Inductive Event : Type :=
| ImageLoaded (result : jsstring)
| Generate (gender : jsstring)
| Regenerate (hairstyle : jsstring)
| Remix (hairstyle prompt : jsstring)
| Reset
| WorkerSettles (r i : nat) (outcome : Settled jsstring)
| OneOffSettles (i : nat) (outcome : Settled jsstring).

Definition step (s : App) (ev : Event) : option App :=
  match ev with
  | ImageLoaded result => Some (imageLoaded result s)
  | Generate gender => Some (handleGenerate gender s)
  | Regenerate hairstyle => Some (handleRegenerateDecade hairstyle s)
  | Remix hairstyle prompt => Some (handleRemixDecade hairstyle prompt s)
  | Reset => Some (handleReset s)
  | WorkerSettles r i outcome => workerSettles r i outcome s
  | OneOffSettles i outcome => oneOffSettles i outcome s
  end.

Fixpoint exec (s : App) (evs : list Event) : option App :=
  match evs with
  | [] => Some s
  | ev :: evs' =>
      match step s ev with
      | Some s' => exec s' evs'
      | None => None
      end
  end.

Definition reachable (s : App) : Prop :=
  ∃ evs, exec initialApp evs = Some s.

(** The settlements of the workers of run [r] alone. *)
Definition runEvents (r : nat) (sched : list (nat * Settled jsstring)) : list Event :=
  map (fun '(i, outcome) => WorkerSettles r i outcome) sched.

(** ** Notions used in the statements *)

(** The shape of an embedded image reference, in the words of the
    specification: [data:<mediaType>;base64,<encodedData>] with an image
    media type. *)
Definition dataUrlShape (s : jsstring) : Prop :=
  ∃ mediaType encodedData,
    s = js "data:" ++ mediaType ++ js ";base64," ++ encodedData
    ∧ startsWith (js "image/") mediaType = true.

(** The two terminal wrappers of the generation client. *)
Definition fallbackFailed (fallbackError : Thrown) : Thrown :=
  ErrorObj (js "O modelo de IA falhou com os prompts original e de recurso. Último erro: "
            ++ messageOrString fallbackError).

Definition generationFailed (error : Thrown) : Thrown :=
  ErrorObj (js "O modelo de IA não conseguiu gerar uma imagem. Detalhes: "
            ++ messageOrJson error).

(** A refusal in prose, and a response carrying an image. *)
Definition refusal : GenerateContentResponse :=
  {| candidateParts := Some [ {| inlineData := None |} ];
     text := Some (js "I cannot edit this photo.") |}.

Definition pictured : GenerateContentResponse :=
  {| candidateParts :=
       Some [ {| inlineData := None |};
              {| inlineData := Some {| mimeType := js "image/png"; data := js "QkJCQg==" |} |} ];
     text := None |}.

Definition internalFault : Thrown :=
  ErrorObj (js "{" ++ dquote ++ js "error" ++ dquote ++ js ":{"
            ++ dquote ++ js "code" ++ dquote ++ js ":500,"
            ++ dquote ++ js "status" ++ dquote ++ js ":"
            ++ dquote ++ js "INTERNAL" ++ dquote ++ js "}}").

(** The invariant of one run of the pool. [hs] is the label list of the
    run, [c0] the call log when it started, [r] its index and [D] the
    labels whose generation has settled. *)
Definition RunInv (hs : list jsstring) (c0 : list ClientCall)
    (image gender : jsstring) (r : nat) (D : list jsstring) (s : App) : Prop :=
  ∃ run pre,
    runs s !! r = Some run
    ∧ runImage run = image ∧ runGender run = gender
    ∧ hs = pre ++ hairstyleQueue run
    ∧ pre ≡ₚ D ++ awaited (workers run)
    ∧ calls s = c0 ++ map (generateCall image gender) pre
    ∧ (∀ h, h ∈ D → ∃ o, generatedImages s !! h = Some (generationResult o))
    ∧ (∀ j, workers run !! j = Some Finished → hairstyleQueue run = [])
    ∧ length (workers run) = concurrencyLimit
    ∧ (settled run = true → appState s = results_shown ∧ isLoading s = false).


(** The state reached from the initial one by a list of events. *)
Definition afterEvents (evs : list Event) : App :=
  default initialApp (exec initialApp evs).

(** Concrete values for the examples. *)
Definition photo : jsstring := js "data:image/jpeg;base64,QUFBQQ==".
Definition picture1 : jsstring := js "data:image/png;base64,QkJCQg==".
Definition picture2 : jsstring := js "data:image/png;base64,Q0NDQw==".
Definition buzz : jsstring := js "Corte Buzz (com Degradê)".
Definition undercut : jsstring := js "Undercut Desconectado".

(** ** The download handlers of the [App] component *)

(** [s.replace(c, r)] with a one-character string pattern: only the first
    occurrence is replaced. *)
Fixpoint replaceFirst (c : N) (r : jsstring) (s : jsstring) : jsstring :=
  match s with
  | [] => []
  | x :: s' => if x =? c then r ++ s' else x :: replaceFirst c r s'
  end.

(** [handleDownloadIndividualImage]: the [href] and the [download] name of
    the link that is clicked, if any. *)
Definition handleDownloadIndividualImage (hairstyle : jsstring) (s : App)
  : option (jsstring * jsstring) :=
  match generatedImages s !! hairstyle with
  | Some {| status := Done; url := Some imageUrl |} =>
      if truthy imageUrl
      then Some (imageUrl,
                 js "estudio-de-estilos-" ++ replaceFirst 32 (js "-") hairstyle
                 ++ js ".jpg")
      else None
  | _ => None
  end.

(** The entry of an item in [imageData]: kept when
    [image.status === 'done' && image.url]. *)
Definition albumEntry (image : GeneratedImage) : option jsstring :=
  match status image, url image with
  | Done, Some imageUrl => if truthy imageUrl then Some imageUrl else None
  | _, _ => None
  end.

(** [imageData], as a map from label to image (the order of its keys is
    not represented). *)
Definition albumData (s : App) : gmap (list N) jsstring :=
  omap albumEntry (generatedImages s).

Inductive AlbumRequest : Type :=
| AlbumAlert                                      (* the "please wait" alert *)
| AlbumCreate (imageData : gmap (list N) jsstring). (* createAlbumPage(imageData) *)

(** [handleDownloadAlbum] up to the call of [createAlbumPage]; the
    [isDownloading] flag, raised on entry and lowered in [finally], is
    left out. *)
Definition handleDownloadAlbum (s : App) : AlbumRequest :=
  let imageData := albumData s in
  let hairstyles :=
    match selectedGender s with
    | Some gender => hairstylesFor gender
    | None => FEMALE_HAIRSTYLES
    end in
  if (size imageData <? length hairstyles)%nat then AlbumAlert
  else AlbumCreate imageData.

(** ** The remix form of the card *)







(** ** Further notions used in the statements *)

(** Number of transport calls and total delay of a list of effects. *)
Fixpoint callCount (tr : list Effect) : nat :=
  match tr with
  | [] => 0%nat
  | Call _ :: tr' => S (callCount tr')
  | Sleep _ :: tr' => callCount tr'
  end.

Fixpoint totalDelay (tr : list Effect) : N :=
  match tr with
  | [] => 0
  | Call _ :: tr' => totalDelay tr'
  | Sleep ms :: tr' => ms + totalDelay tr'
  end.

(** A media type the data-URL pattern accepts, and an encoded part it
    accepts. *)
Definition isImageMediaType (m : jsstring) : bool :=
  match stripPrefix (js "image/") m with
  | Some w => truthy w && forallb isWordChar w
  | None => false
  end.

Definition noLineTerminator (d : jsstring) : bool :=
  forallb (fun c => negb (isLineTerminator c)) d.

(** The label a one-off activation works on, and the item it writes. *)
Definition oneOffLabel (op : OneOff) : jsstring :=
  match op with
  | Regenerating hairstyle => hairstyle
  | Remixing hairstyle _ => hairstyle
  end.

Definition oneOffResult (op : OneOff) (outcome : Settled jsstring) : GeneratedImage :=
  match op with
  | Regenerating _ => generationResult outcome
  | Remixing _ sourceImage => remixResult sourceImage outcome
  end.

(** Events of the retry and remix operations only. *)
Definition isOneOffEvent (ev : Event) : bool :=
  match ev with
  | Regenerate _ | Remix _ _ | OneOffSettles _ _ => true
  | _ => false
  end.

(** An outcome that yields an entry of the album. *)
Definition usable (outcome : Settled jsstring) : bool :=
  match outcome with
  | Fulfilled resultUrl => truthy resultUrl
  | Rejected _ => false
  end.

(** The items of a run of the pool: [written] pairs each settled label
    with the outcome it settled with. *)
Definition RunItems (hs : list jsstring) (gender : jsstring)
    (written : list (jsstring * Settled jsstring)) (s : App) : Prop :=
  (∀ h o, (h, o) ∈ written → generatedImages s !! h = Some (generationResult o))
  ∧ (∀ h, h ∈ hs → h ∉ written.*1 → generatedImages s !! h = Some pendingImage)
  ∧ (∀ h, is_Some (generatedImages s !! h) → h ∈ hs)
  ∧ selectedGender s = Some gender.

(** ** A run among other operations *)

(** The settlements of the workers of run [r] among a list of events, and
    the events that are settlements, of any activation. *)
Definition isOwnSettlement (r : nat) (ev : Event) : bool :=
  match ev with
  | WorkerSettles r' _ _ => bool_decide (r' = r)
  | _ => false
  end.

Fixpoint ownSettlements (r : nat) (evs : list Event) : nat :=
  match evs with
  | [] => 0%nat
  | ev :: evs' =>
      if isOwnSettlement r ev then S (ownSettlements r evs') else ownSettlements r evs'
  end.

Definition isSettlement (ev : Event) : bool :=
  match ev with
  | WorkerSettles _ _ _ | OneOffSettles _ _ => true
  | _ => false
  end.

(** An item that is [Done] or [Error]. *)
Definition finished (o : option GeneratedImage) : Prop :=
  ∃ it, o = Some it ∧ (status it = Done ∨ status it = Error).

(** What holds of run [r] whatever else happens: [n] of its generations
    have settled. *)
Definition RunCore (hs : list jsstring) (c0 : list ClientCall)
    (image gender : jsstring) (r n : nat) (s : App) : Prop :=
  ∃ run pre issued,
    runs s !! r = Some run
    ∧ runImage run = image ∧ runGender run = gender
    ∧ hs = pre ++ hairstyleQueue run
    ∧ length pre = (n + inFlight run)%nat
    ∧ calls s = c0 ++ issued
    ∧ map (generateCall image gender) pre `sublist_of` issued
    ∧ (∀ j, workers run !! j = Some Finished → hairstyleQueue run = [])
    ∧ length (workers run) = concurrencyLimit.

(** The label a call of the retry or of the remix handler is for. *)
Definition retried (ev : Event) : option jsstring :=
  match ev with
  | Regenerate hairstyle | Remix hairstyle _ => Some hairstyle
  | _ => None
  end.

(** The calls that replace the whole set of items: an upload, a new run
    and a reset. *)
Definition isRestart (ev : Event) : bool :=
  match ev with
  | ImageLoaded _ | Generate _ | Reset => true
  | _ => false
  end.

(** What holds of the items of run [r] as long as the set of items is not
    replaced: a label of the run is still in the queue, or in flight, or
    its item is [Done] or [Error], or a retry or remix of it, called since
    the run started ([touched] are the labels so called), is in flight on
    a [Pending] item. *)
Definition RunDone (touched hs : list jsstring) (r : nat) (s : App) : Prop :=
  ∃ run,
    runs s !! r = Some run
    ∧ (∀ h, h ∈ hs →
            h ∈ hairstyleQueue run ∨ h ∈ awaited (workers run)
            ∨ finished (generatedImages s !! h)
            ∨ (h ∈ touched ∧ isPending (generatedImages s !! h) = true
               ∧ h ∈ oneOffLabel <$> oneOffs s))
    ∧ (settled run = true → appState s = results_shown ∧ isLoading s = false).

(** ** Retry and remix called from an older render

    A handler is a closure of the render that created it: the guards of
    [handleRegenerateDecade] and [handleRemixDecade], the source image of
    a remix and the image and gender of a retry are read from the cells
    as they were in that render, while the updates, written
    [prev => ...], apply to the items as last written. *)

Definition handleRegenerateDecadeFrom (rendered : App) (hairstyle : jsstring) (s : App)
  : App :=
  match uploadedImage rendered, selectedGender rendered with
  | Some image, Some gender =>
      if negb (truthy image) || negb (truthy gender) then s
      else if isPending (generatedImages rendered !! hairstyle) then s
      else
        {| uploadedImage := uploadedImage s;
           generatedImages := <[hairstyle := pendingImage]> (generatedImages s);
           isLoading := isLoading s; appState := appState s;
           selectedGender := selectedGender s;
           runs := runs s; oneOffs := oneOffs s ++ [Regenerating hairstyle];
           calls := calls s ++ [generateCall image gender hairstyle] |}
  | _, _ => s
  end.

Definition handleRemixDecadeFrom (rendered : App) (hairstyle prompt : jsstring) (s : App)
  : App :=
  match generatedImages rendered !! hairstyle ≫= url with
  | None => s
  | Some sourceImage =>
      if negb (truthy sourceImage) || negb (truthy prompt) then s
      else if isPending (generatedImages rendered !! hairstyle) then s
      else
        {| uploadedImage := uploadedImage s;
           generatedImages :=
             <[hairstyle := markPending (generatedImages s !! hairstyle)]>
               (generatedImages s);
           isLoading := isLoading s; appState := appState s;
           selectedGender := selectedGender s;
           runs := runs s;
           oneOffs := oneOffs s ++ [Remixing hairstyle sourceImage];
           calls := calls s ++ [RemixCall sourceImage prompt] |}
  end.

(** Retry and remix calls, each with the render it reads, and the
    settlements of their client calls. *)
Inductive OneOffEvent : Type :=
| RetryFrom (rendered : App) (hairstyle : jsstring)
| RemixFrom (rendered : App) (hairstyle prompt : jsstring)
| OneOffSettled (i : nat) (outcome : Settled jsstring).

Definition stepFrom (s : App) (ev : OneOffEvent) : option App :=
  match ev with
  | RetryFrom rendered hairstyle => Some (handleRegenerateDecadeFrom rendered hairstyle s)
  | RemixFrom rendered hairstyle prompt =>
      Some (handleRemixDecadeFrom rendered hairstyle prompt s)
  | OneOffSettled i outcome => oneOffSettles i outcome s
  end.

Fixpoint execFrom (s : App) (evs : list OneOffEvent) : option App :=
  match evs with
  | [] => Some s
  | ev :: evs' =>
      match stepFrom s ev with
      | Some s' => execFrom s' evs'
      | None => None
      end
  end.

(** The render a call reads shows the cells as last written. *)
Definition sameReads (rendered s : App) : Prop :=
  uploadedImage rendered = uploadedImage s
  ∧ selectedGender rendered = selectedGender s
  ∧ generatedImages rendered = generatedImages s.

(** Every call of the sequence reads the cells as last written: a render
    has taken place since the update before it. *)
Fixpoint readsLatest (s : App) (evs : list OneOffEvent) : Prop :=
  match evs with
  | [] => True
  | ev :: evs' =>
      match ev with
      | RetryFrom rendered _ | RemixFrom rendered _ _ => sameReads rendered s
      | OneOffSettled _ _ => True
      end
      ∧ match stepFrom s ev with
        | Some s' => readsLatest s' evs'
        | None => True
        end
  end.

(** * Proof automation *)

Local Ltac retry_done :=
  rewrite ?andb_false_r; simpl; rewrite <- ?app_assoc; simpl;
  repeat split; auto with lia.

(** * Properties of the service *)

(** ** The data-URL pattern *)

Lemma stripPrefix_Some p s r : stripPrefix p s = Some r → s = p ++ r.
Proof.
  revert s; induction p as [|a p IH]; intros [|b s] H; simpl in *;
    try congruence.
  destruct (N.eqb_spec a b) as [->|]; [|discriminate].
  f_equal. by apply IH.
Qed.

Lemma stripPrefix_app p r : stripPrefix p (p ++ r) = Some r.
Proof.
  induction p as [|a p IH]; simpl; [by destruct r|].
  by rewrite N.eqb_refl.
Qed.

Lemma spanWord_split s w r :
  spanWord s = (w, r) → s = w ++ r ∧ forallb isWordChar w = true.
Proof.
  revert w r; induction s as [|c s IH]; intros w r H; simpl in H.
  - by inversion H.
  - destruct (isWordChar c) eqn:Hc.
    + destruct (spanWord s) as [w' r'] eqn:Hs. inversion H; subst.
      destruct (IH _ _ eq_refl) as [-> Hw]. simpl. by rewrite Hc.
    + by inversion H.
Qed.

(** The run of [\w] stops at the first character outside the class. *)
Lemma spanWord_app w c r :
  forallb isWordChar w = true → isWordChar c = false →
  spanWord (w ++ c :: r) = (w, c :: r).
Proof.
  intros Hw Hc. induction w as [|a w IH]; simpl in *.
  - by rewrite Hc.
  - apply andb_true_iff in Hw as [Ha Hw]. by rewrite Ha, IH.
Qed.

(** The matcher accepts exactly the language of the pattern, and its
    groups are the only possible split. *)
Lemma matchDataUrl_spec s m d :
  matchDataUrl s = Some (m, d) ↔
  ∃ w, w ≠ [] ∧ forallb isWordChar w = true ∧ m = js "image/" ++ w
       ∧ forallb (fun c => negb (isLineTerminator c)) d = true
       ∧ s = js "data:" ++ m ++ js ";base64," ++ d.
Proof.
  unfold matchDataUrl. split.
  - destruct (stripPrefix (js "data:") s) as [r0|] eqn:H0; [|done].
    destruct (stripPrefix (js "image/") r0) as [r1|] eqn:H1; [|done].
    destruct (spanWord r1) as [w r2] eqn:H2.
    destruct w as [|c w]; [done|].
    destruct (stripPrefix (js ";base64,") r2) as [r3|] eqn:H3; [|done].
    destruct (forallb _ r3) eqn:H4; [|done].
    intros [= <- <-].
    apply stripPrefix_Some in H0, H1, H3.
    apply spanWord_split in H2 as [H2 Hw].
    exists (c :: w). repeat split; try done.
    subst. reflexivity.
  - intros (w & Hne & Hw & -> & Hd & ->).
    rewrite stripPrefix_app.
    rewrite <- app_assoc, stripPrefix_app.
    change (js ";base64,") with (59 :: js "base64,").
    rewrite <- app_comm_cons, (spanWord_app w 59 _ Hw eq_refl).
    destruct w as [|c w]; [done|].
    change (59 :: js "base64," ++ d) with (js ";base64," ++ d).
    by rewrite stripPrefix_app, Hd.
Qed.

Lemma matchDataUrl_shape s m d : matchDataUrl s = Some (m, d) → dataUrlShape s.
Proof.
  intros (w & _ & _ & -> & _ & ->)%matchDataUrl_spec.
  by exists (js "image/" ++ w), d.
Qed.

(** C7. Decoding then encoding reproduces the string: whenever the parse
    succeeds with groups [m] and [d], the data URL composed from them is
    the input; and a string that does not have the shape
    [data:<mediaType>;base64,<encodedData>] with an image media type is
    rejected by the parse, so that both clients fail with the
    invalid-format error before any transport call. *)
Theorem decode_encode_roundtrip :
  ∀ (s : jsstring),
    (∀ m d, matchDataUrl s = Some (m, d) → encode m d = s)
    ∧ (¬ dataUrlShape s →
       matchDataUrl s = None
       ∧ ∀ W (gc : Request → W → Settled GenerateContentResponse * W)
           prompt hairstyle gender st,
           generateDecadeImage gc s prompt hairstyle gender st
           = (Rejected invalidImageFormat, st)
           ∧ remixImage gc s prompt st = (Rejected invalidImageFormat, st)).
Proof.
  intros s. split.
  - intros m d (w & _ & _ & -> & _ & ->)%matchDataUrl_spec. done.
  - intros Hshape.
    assert (matchDataUrl s = None) as Hnone.
    { destruct (matchDataUrl s) as [[m d]|] eqn:Hm; [|done].
      destruct Hshape. by eapply matchDataUrl_shape. }
    split; [done|]. intros W gc prompt hairstyle gender st.
    unfold generateDecadeImage, remixImage. by rewrite Hnone.
Qed.

Lemma decode_encode_roundtrip_witness :
  encode (js "image/png") (js "iVBORw0KGgo=") = js "data:image/png;base64,iVBORw0KGgo="
  ∧ matchDataUrl (js "image/png;base64,iVBORw0KGgo=") = None.
Proof.
  split.
  - apply (decode_encode_roundtrip (js "data:image/png;base64,iVBORw0KGgo=")).
    reflexivity.
  - apply (decode_encode_roundtrip (js "image/png;base64,iVBORw0KGgo=")).
    intros (m & d & H & _). vm_compute in H. discriminate H.
Defined.

(** C8, as stated: every parsed payload would have an image media type and
    a non-empty encoded part. The pattern ends in "zero or more", so an
    empty encoded part is accepted. *)
Lemma decode_empty_data_counterexample :
  ¬ (∀ s m d, matchDataUrl s = Some (m, d) →
              startsWith (js "image/") m = true ∧ d ≠ []).
Proof.
  intros H.
  destruct (H (js "data:image/png;base64,") (js "image/png") []) as [_ Hd];
    [reflexivity | by apply Hd].
Qed.

(** C8, amended. Every parsed payload has a media type of the form
    [image/] followed by one or more word characters, and an encoded part
    free of line terminators, possibly empty. *)
Theorem decode_payload_invariant :
  ∀ s m d,
    matchDataUrl s = Some (m, d) →
    startsWith (js "image/") m = true
    ∧ (∃ w, m = js "image/" ++ w ∧ w ≠ [] ∧ forallb isWordChar w = true)
    ∧ forallb (fun c => negb (isLineTerminator c)) d = true.
Proof.
  intros s m d (w & Hne & Hw & -> & Hd & _)%matchDataUrl_spec.
  split; [reflexivity|]. split; [by exists w | done].
Qed.

Lemma decode_payload_invariant_witness :
  startsWith (js "image/") (js "image/jpeg") = true
  ∧ (∃ w, js "image/jpeg" = js "image/" ++ w ∧ w ≠ [] ∧ forallb isWordChar w = true)
  ∧ forallb (fun c => negb (isLineTerminator c)) (js "AAAA") = true.
Proof.
  apply (decode_payload_invariant (js "data:image/jpeg;base64,AAAA")).
  reflexivity.
Defined.

(** ** The retrying transport call *)

Section RetryProperties.

Context {W : Type}.
Variable gc : Request → W → Settled GenerateContentResponse * W.

(** What a call of [callGeminiWithRetry] does, in terms of the successive
    outcomes of the transport. *)
Lemma callGeminiWithRetry_outcomes imagePart textPart (st : St) :
  let req := modelRequest imagePart textPart in
  let out := callGeminiWithRetry gc imagePart textPart st in
  ∃ (k : nat) failed,
    (1 ≤ k ≤ 3)%nat
    ∧ forallb transient failed = true
    ∧ transportRun gc req k (world st) = (failed ++ [out.1], world out.2)
    ∧ trace out.2 = trace st ++ backoffTrace req k 1
    ∧ (k = 3%nat ∨ transient out.1 = false).
Proof.
  intros req out. subst out.
  unfold callGeminiWithRetry. change (N.to_nat maxRetries) with 3%nat.
  unfold retryLoop, tryCatch, bind, awaitGenerateContent, awaitTimeout, throw.
  unfold maxRetries, initialDelay. fold req.
  change (1 <? 3) with true. change (1 + 1 <? 3) with true.
  change (1 + 1 + 1 <? 3) with false.
  change (1000 * 2 ^ (1 - 1)) with 1000. change (1000 * 2 ^ (1 + 1 - 1)) with 2000.
  simpl.
  rewrite ?andb_true_r, ?andb_false_r.
  destruct (gc req (world st)) as [[r1|e1] w1] eqn:E1; simpl.
  { exists 1%nat, []. simpl. rewrite E1. retry_done. }
  destruct (isInternalError (messageOrJson e1)) eqn:I1; simpl.
  2:{ exists 1%nat, []. simpl. rewrite E1, I1. retry_done. }
  destruct (gc req w1) as [[r2|e2] w2] eqn:E2; simpl.
  { exists 2%nat, [Rejected e1]. simpl. rewrite E1, E2, I1. retry_done. }
  destruct (isInternalError (messageOrJson e2)) eqn:I2; simpl.
  2:{ exists 2%nat, [Rejected e1]. simpl. rewrite E1, E2, I1, I2. retry_done. }
  destruct (gc req w2) as [[r3|e3] w3] eqn:E3; simpl;
    exists 3%nat, [Rejected e1; Rejected e2]; simpl;
    rewrite E1, E2, E3, I1, I2; retry_done.
Qed.

(** An attempt-group makes between one and three transport calls, with
    the backoff delays in between, and nothing else. *)
Lemma attemptGroup_trace imagePart textPart (st : St) :
  ∃ k : nat,
    (1 ≤ k ≤ 3)%nat
    ∧ trace (attemptGroup gc imagePart textPart st).2
      = trace st ++ backoffTrace (modelRequest imagePart textPart) k 1.
Proof.
  destruct (callGeminiWithRetry_outcomes imagePart textPart st)
    as (k & failed & Hk & _ & _ & Htr & _).
  exists k. split; [done|].
  unfold attemptGroup, bind, settle.
  destruct (callGeminiWithRetry gc imagePart textPart st) as [[r|e] st'];
    simpl in *; done.
Qed.

End RetryProperties.

(** Every failure of the extraction is classified as "no image". *)
Lemma processGeminiResponse_noImage response e :
  processGeminiResponse response = Rejected e →
  isNoImageError (messageOrJson e) = true.
Proof.
  unfold processGeminiResponse.
  destruct (match candidateParts response with
            | Some ps => find hasInlineData ps | None => None end) as [[[b|]]|];
    intros [= <-]; reflexivity.
Qed.

(** C1. A call of [callGeminiWithRetry] makes [k] transport attempts with
    [1 <= k <= 3]. Every attempt but the last failed with an error whose
    message marks an internal server fault; after the failure of attempt
    [j < k] it waits [1000 * 2^(j-1)] ms (1000 after the first, 2000 after
    the second) and calls again. The outcome of the last attempt is the
    outcome of the call, unchanged; if it is a failure, either it is not
    classified as transient or it is the third attempt, and nothing, in
    particular no delay, follows the last attempt. *)
Theorem callGeminiWithRetry_bounded_backoff :
  ∀ W (gc : Request → W → Settled GenerateContentResponse * W)
    imagePart textPart (st : St),
    let req := modelRequest imagePart textPart in
    let out := callGeminiWithRetry gc imagePart textPart st in
    (∃ (k : nat) failed,
        (1 ≤ k ≤ 3)%nat
        ∧ forallb transient failed = true
        ∧ transportRun gc req k (world st) = (failed ++ [out.1], world out.2)
        ∧ trace out.2 = trace st ++ backoffTrace req k 1
        ∧ (k = 3%nat ∨ transient out.1 = false))
    ∧ backoffTrace req 1 1 = [Call req]
    ∧ backoffTrace req 2 1 = [Call req; Sleep 1000; Call req]
    ∧ backoffTrace req 3 1 = [Call req; Sleep 1000; Call req; Sleep 2000; Call req].
Proof.
  intros W gc imagePart textPart st req out.
  split; [apply callGeminiWithRetry_outcomes | done].
Qed.

(** C2. With a well-formed source image, [generateDecadeImage] first runs
    one attempt-group with the caller's prompt. If that group yields an
    image, it is the result. If it fails with the no-image failure (which
    every failure of the extraction is) and both the hairstyle and the
    gender are non-empty, exactly one more attempt-group runs, with the
    fallback prompt: its image is the result, or else the failure is
    "generation failed" embedding the message of the fallback failure; the
    transport has then seen two groups of one to three attempts each. If
    one of the fallback inputs is empty, the no-image error itself is
    rethrown, and any other primary failure is wrapped and thrown; in both
    cases only the primary group has run. *)
Theorem generateDecadeImage_fallback :
  ∀ W (gc : Request → W → Settled GenerateContentResponse * W)
    imageDataUrl prompt hairstyle gender (st : St) mimeType base64Data,
    matchDataUrl imageDataUrl = Some (mimeType, base64Data) →
    let imagePart := InlineDataPart mimeType base64Data in
    let fallbackPrompt := getFallbackPrompt hairstyle gender in
    let primary := attemptGroup gc imagePart (TextPart prompt) st in
    let fallback := attemptGroup gc imagePart (TextPart fallbackPrompt) primary.2 in
    let out := generateDecadeImage gc imageDataUrl prompt hairstyle gender st in
    let primaryOnly :=
      ∃ k1 : nat,
        (1 ≤ k1 ≤ 3)%nat
        ∧ trace out.2
          = trace st ++ backoffTrace (modelRequest imagePart (TextPart prompt)) k1 1 in
    (∀ response, match processGeminiResponse response with
                 | Fulfilled _ => True
                 | Rejected e => isNoImageError (messageOrJson e) = true
                 end)
    ∧ match primary.1 with
      | Fulfilled image => out = (Fulfilled image, primary.2) ∧ primaryOnly
      | Rejected e =>
          if isNoImageError (messageOrJson e)
          then
            if truthy hairstyle && truthy gender
            then
              out = (match fallback.1 with
                     | Fulfilled image => Fulfilled image
                     | Rejected e2 => Rejected (fallbackFailed e2)
                     end, fallback.2)
              ∧ ∃ k1 k2 : nat,
                  (1 ≤ k1 ≤ 3)%nat ∧ (1 ≤ k2 ≤ 3)%nat
                  ∧ trace out.2
                    = trace st
                      ++ backoffTrace (modelRequest imagePart (TextPart prompt)) k1 1
                      ++ backoffTrace (modelRequest imagePart (TextPart fallbackPrompt)) k2 1
            else out = (Rejected e, primary.2) ∧ primaryOnly
          else out = (Rejected (generationFailed e), primary.2) ∧ primaryOnly
      end.
Proof.
  intros W gc imageDataUrl prompt hairstyle gender st mimeType base64Data Hm
    imagePart fallbackPrompt primary fallback out primaryOnly.
  split.
  { intros response. destruct (processGeminiResponse response) eqn:Hr; [done|].
    by eapply processGeminiResponse_noImage. }
  destruct (attemptGroup_trace gc imagePart (TextPart prompt) st) as (k1 & Hk1 & Ht1).
  destruct (attemptGroup_trace gc imagePart (TextPart fallbackPrompt) primary.2)
    as (k2 & Hk2 & Ht2).
  fold primary in Ht1. fold fallback in Ht2.
  assert (out = tryCatch (attemptGroup gc imagePart (TextPart prompt))
                  (fun error =>
                     if isNoImageError (messageOrJson error)
                     then if negb (truthy hairstyle) || negb (truthy gender)
                          then throw error
                          else tryCatch
                                 (attemptGroup gc imagePart (TextPart fallbackPrompt))
                                 (fun fallbackError => throw (fallbackFailed fallbackError))
                     else throw (generationFailed error)) st) as Hout.
  { subst out. unfold generateDecadeImage. rewrite Hm. reflexivity. }
  unfold tryCatch at 1 in Hout. fold primary in Hout.
  subst primaryOnly.
  destruct primary as [[image|e] st1] eqn:Hp; simpl in *.
  { split; [done|]. exists k1. by rewrite Hout. }
  destruct (isNoImageError (messageOrJson e)); simpl.
  2:{ split; [done|]. exists k1. by rewrite Hout. }
  destruct (truthy hairstyle); simpl in *.
  2:{ split; [done|]. exists k1. by rewrite Hout. }
  destruct (truthy gender); simpl in *.
  2:{ split; [done|]. exists k1. by rewrite Hout. }
  unfold tryCatch in Hout. fold fallback in Hout.
  destruct fallback as [[image|e2] st2] eqn:Hf; simpl in *.
  - split; [done|]. exists k1, k2. rewrite Hout. simpl.
    rewrite Ht2, Ht1. by rewrite <- app_assoc.
  - split; [done|]. exists k1, k2. rewrite Hout. simpl.
    rewrite Ht2, Ht1. by rewrite <- app_assoc.
Qed.

(** The primary prompt is refused, the fallback prompt yields an image:
    two transport calls, one per group, and the fallback image. *)
Lemma generateDecadeImage_fallback_witness :
  let imagePart := InlineDataPart (js "image/jpeg") (js "QUFBQQ==") in
  let prompt := stylePrompt (js "masculino") (js "Coque Samurai") in
  matchDataUrl (js "data:image/jpeg;base64,QUFBQQ==") = Some (js "image/jpeg", js "QUFBQQ==")
  ∧ generateDecadeImage scripted (js "data:image/jpeg;base64,QUFBQQ==") prompt
      (js "Coque Samurai") (js "masculino")
      {| world := [Fulfilled refusal; Fulfilled pictured]; trace := [] |}
    = (Fulfilled (js "data:image/png;base64,QkJCQg=="),
       {| world := [];
          trace := [Call (modelRequest imagePart (TextPart prompt));
                    Call (modelRequest imagePart
                            (TextPart (getFallbackPrompt (js "Coque Samurai") (js "masculino"))))] |}).
Proof.
  intros imagePart prompt. split; [reflexivity|].
  exact (proj1 (proj2 (generateDecadeImage_fallback _ scripted
                         (js "data:image/jpeg;base64,QUFBQQ==") prompt
                         (js "Coque Samurai") (js "masculino")
                         {| world := [Fulfilled refusal; Fulfilled pictured]; trace := [] |}
                         (js "image/jpeg") (js "QUFBQQ==") eq_refl))).
Defined.

(** Two internal faults, then a response: three calls, delays of 1000 and
    2000 ms. *)
Example callGeminiWithRetry_third_attempt :
  let imagePart := InlineDataPart (js "image/jpeg") (js "QUFBQQ==") in
  let textPart := TextPart (js "short hair") in
  let req := modelRequest imagePart textPart in
  callGeminiWithRetry scripted imagePart textPart
    {| world := [Rejected internalFault; Rejected internalFault; Fulfilled pictured];
       trace := [] |}
  = (Fulfilled pictured,
     {| world := []; trace := [Call req; Sleep 1000; Call req; Sleep 2000; Call req] |}).
Proof. reflexivity. Qed.

(** A failure that is not an internal fault is thrown after one call. *)
Example callGeminiWithRetry_no_retry :
  let imagePart := InlineDataPart (js "image/jpeg") (js "QUFBQQ==") in
  let textPart := TextPart (js "short hair") in
  callGeminiWithRetry scripted imagePart textPart
    {| world := [Rejected (ErrorObj (js "API key not valid")); Fulfilled pictured];
       trace := [] |}
  = (Rejected (ErrorObj (js "API key not valid")),
     {| world := [Fulfilled pictured];
        trace := [Call (modelRequest imagePart textPart)] |}).
Proof. reflexivity. Qed.

(** Three internal faults: the third one is thrown, with no delay after it. *)
Example callGeminiWithRetry_exhausted :
  let imagePart := InlineDataPart (js "image/jpeg") (js "QUFBQQ==") in
  let textPart := TextPart (js "short hair") in
  let req := modelRequest imagePart textPart in
  callGeminiWithRetry scripted imagePart textPart
    {| world := [Rejected internalFault; Rejected internalFault; Rejected internalFault;
                 Fulfilled pictured];
       trace := [] |}
  = (Rejected internalFault,
     {| world := [Fulfilled pictured];
        trace := [Call req; Sleep 1000; Call req; Sleep 2000; Call req] |}).
Proof. reflexivity. Qed.


(** * Properties of the orchestrator *)

(** ** Elementary facts *)

Lemma afterPromiseAll_fields r s :
  uploadedImage (afterPromiseAll r s) = uploadedImage s
  ∧ generatedImages (afterPromiseAll r s) = generatedImages s
  ∧ selectedGender (afterPromiseAll r s) = selectedGender s
  ∧ runs (afterPromiseAll r s) = runs s
  ∧ oneOffs (afterPromiseAll r s) = oneOffs s
  ∧ calls (afterPromiseAll r s) = calls s.
Proof. unfold afterPromiseAll. by destruct (settled r). Qed.

Lemma afterPromiseAll_settled r s :
  settled r = true →
  appState (afterPromiseAll r s) = results_shown
  ∧ isLoading (afterPromiseAll r s) = false.
Proof. unfold afterPromiseAll. by intros ->. Qed.

(** On a queue of non-empty labels the worker takes the head. *)
Lemma workerLoop_truthy queue :
  forallb truthy queue = true →
  workerLoop queue
  = match queue with
    | [] => (Finished, [])
    | h :: queue' => (Awaiting h, queue')
    end.
Proof.
  destruct queue as [|h queue]; cbn [workerLoop forallb]; [done|].
  by destruct (truthy h).
Qed.

Lemma startWorkers_truthy n queue :
  forallb truthy queue = true →
  startWorkers n queue
  = (map Awaiting (take n queue) ++ replicate (n - length queue) Finished,
     drop n queue).
Proof.
  revert queue; induction n as [|n IH]; intros queue Hq; [done|].
  simpl startWorkers. rewrite (workerLoop_truthy _ Hq).
  destruct queue as [|h queue].
  - rewrite (IH [] eq_refl). simpl.
    by rewrite Nat.sub_0_r, take_nil, drop_nil.
  - simpl in Hq. apply andb_true_iff in Hq as [_ Hq]. by rewrite (IH _ Hq).
Qed.

Lemma awaited_app ws1 ws2 : awaited (ws1 ++ ws2) = awaited ws1 ++ awaited ws2.
Proof. unfold awaited. apply omap_app. Qed.

Lemma awaited_map_Awaiting l : awaited (map Awaiting l) = l.
Proof. induction l as [|h l IH]; simpl; [done|]. unfold awaited in *. simpl. by rewrite IH. Qed.

Lemma awaited_replicate_Finished n : awaited (replicate n Finished) = [].
Proof. induction n; simpl; done. Qed.

Lemma awaited_length ws : (length (awaited ws) ≤ length ws)%nat.
Proof. induction ws as [|[h|] ws IH]; simpl; lia. Qed.

Lemma awaited_lookup ws i h : ws !! i = Some (Awaiting h) → h ∈ awaited ws.
Proof.
  revert i; induction ws as [|w ws IH]; intros [|i] H; simpl in *; try done.
  - injection H as ->. unfold awaited. simpl. apply list_elem_of_here.
  - unfold awaited in *. simpl. destruct w; [apply list_elem_of_further|]; eauto.
Qed.

Lemma awaited_nil ws : awaited ws = [] → forallb isFinished ws = true.
Proof. induction ws as [|[h|] ws IH]; simpl; [done| |]; unfold awaited; simpl; [done|exact IH]. Qed.

Lemma settled_awaited ws : forallb isFinished ws = true → awaited ws = [].
Proof.
  induction ws as [|[h|] ws IH]; simpl; [done|done|].
  unfold awaited in *. simpl. exact IH.
Qed.

Lemma awaited_cons w ws : awaited (w :: ws) = awaited [w] ++ awaited ws.
Proof. by destruct w. Qed.

(** Replacing the worker that awaited [h]. *)
Lemma awaited_insert ws i h w :
  ws !! i = Some (Awaiting h) →
  h :: awaited (<[i := w]> ws) ≡ₚ awaited ws ++ awaited [w].
Proof.
  revert i; induction ws as [|a ws IH]; intros [|i] H; try done.
  - injection H as ->. change (<[0%nat:=w]> (Awaiting h :: ws)) with (w :: ws).
    rewrite (awaited_cons w ws), (awaited_cons (Awaiting h) ws).
    change (awaited [Awaiting h]) with [h].
    change (([h] ++ awaited ws) ++ awaited [w]) with (h :: awaited ws ++ awaited [w]).
    apply Permutation_skip, Permutation_app_comm.
  - change (<[S i:=w]> (a :: ws)) with (a :: <[i:=w]> ws).
    rewrite (awaited_cons a (<[i:=w]> ws)), (awaited_cons a ws), <- app_assoc.
    etransitivity; [apply Permutation_middle|].
    apply Permutation_app_head, (IH i H).
Qed.

(** ** The label sets *)

Lemma hairstylesFor_truthy gender : forallb truthy (hairstylesFor gender) = true.
Proof. unfold hairstylesFor. by destruct (bool_decide _). Qed.

Lemma hairstylesFor_NoDup gender : NoDup (hairstylesFor gender).
Proof.
  unfold hairstylesFor. destruct (bool_decide _);
    refine (bool_decide_unpack _ _); vm_compute; exact I.
Qed.

Lemma hairstylesFor_length gender : length (hairstylesFor gender) = 6%nat.
Proof. unfold hairstylesFor. by destruct (bool_decide _). Qed.

(** ** One run of the pool *)

Lemma handleGenerate_started s0 image gender :
  uploadedImage s0 = Some image → truthy image = true →
  let hs := hairstylesFor gender in
  let run := {| runImage := image; runGender := gender;
                hairstyleQueue := drop concurrencyLimit hs;
                workers := map Awaiting (take concurrencyLimit hs)
                           ++ replicate (concurrencyLimit - length hs) Finished |} in
  handleGenerate gender s0
  = afterPromiseAll run
      {| uploadedImage := uploadedImage s0;
         generatedImages :=
           foldl (fun acc hairstyle => <[hairstyle := pendingImage]> acc) ∅ hs;
         isLoading := true; appState := generating;
         selectedGender := Some gender;
         runs := runs s0 ++ [run]; oneOffs := oneOffs s0;
         calls := calls s0 ++ map (generateCall image gender) (take concurrencyLimit hs) |}.
Proof.
  intros Hup Himg hs run. unfold handleGenerate. rewrite Hup, Himg. simpl negb. cbv iota.
  fold hs. rewrite (startWorkers_truthy _ _ (hairstylesFor_truthy gender)). fold hs.
  subst run. by rewrite awaited_app, awaited_map_Awaiting, awaited_replicate_Finished, app_nil_r.
Qed.

Section RunProperties.

Variables (hs : list jsstring) (c0 : list ClientCall) (image gender : jsstring).
Variable r : nat.
Hypothesis hs_truthy : forallb truthy hs = true.
Hypothesis hs_NoDup : NoDup hs.

(** A settlement of a worker of the run preserves the invariant and
    moves the settled label to the settled ones. *)
Lemma RunInv_step D s i outcome s' :
  RunInv hs c0 image gender r D s →
  workerSettles r i outcome s = Some s' →
  ∃ h, RunInv hs c0 image gender r (D ++ [h]) s'.
Proof.
  intros (run & pre & Hrun & Himg & Hgen & Hhs & Hperm & Hcalls & HD & Hfin & Hlen & Hset).
  unfold workerSettles. rewrite Hrun.
  destruct (workers run !! i) as [[h|]|] eqn:Hi; try done.
  assert (forallb truthy (hairstyleQueue run) = true) as Hq.
  { rewrite Hhs, forallb_app in hs_truthy. by apply andb_true_iff in hs_truthy as [_ ?]. }
  rewrite (workerLoop_truthy _ Hq).
  assert (NoDup (D ++ awaited (workers run))) as Hnd.
  { rewrite <- Hperm. rewrite Hhs in hs_NoDup. by apply NoDup_app in hs_NoDup as [? _]. }
  assert (h ∈ awaited (workers run)) as Hh by (by eapply awaited_lookup).
  assert (i < length (workers run))%nat as Hilt by (by eapply lookup_lt_Some).
  assert (r < length (runs s))%nat as Hrlt by (by eapply lookup_lt_Some).
  set (w := match hairstyleQueue run with [] => Finished | h2 :: _ => Awaiting h2 end).
  set (queue' := match hairstyleQueue run with [] => [] | _ :: q => q end).
  assert ((match hairstyleQueue run with
           | [] => (Finished, [])
           | h2 :: q => (Awaiting h2, q)
           end) = (w, queue')) as -> by (subst w queue'; by destruct (hairstyleQueue run)).
  intros [= <-]. exists h.
  match goal with
  | |- RunInv _ _ _ _ _ _ (afterPromiseAll ?r' ?s1) =>
      destruct (afterPromiseAll_fields r' s1) as (_ & Eimg & _ & Eruns & _ & Ecalls);
      pose proof (afterPromiseAll_settled r' s1) as Eset;
      generalize dependent (afterPromiseAll r' s1);
      set (run' := r')
  end.
  intros s2 Eimg Eruns Ecalls Eset. simpl in Eimg, Eruns, Ecalls.
  exists run', (pre ++ awaited [w]).
  rewrite Eruns, Eimg, Ecalls. subst run'. cbn [runImage runGender hairstyleQueue workers].
  split; [by apply list_lookup_insert_eq|].
  split; [done|]. split; [done|].
  split.
  { rewrite Hhs, <- app_assoc. f_equal. subst w queue'.
    by destruct (hairstyleQueue run). }
  split.
  { rewrite Hperm, <- !app_assoc. apply Permutation_app_head.
    symmetry. apply (awaited_insert _ _ _ _ Hi). }
  split.
  { rewrite Hcalls, Himg, Hgen, map_app. by rewrite <- app_assoc. }
  split.
  { intros h' [Hh'| ->%list_elem_of_singleton]%elem_of_app.
    - destruct (HD h' Hh') as [o Ho]. exists o.
      rewrite lookup_insert_ne; [done|]. intros ->.
      apply NoDup_app in Hnd as (_ & Hdisj & _). by apply (Hdisj h').
    - exists outcome. by rewrite lookup_insert_eq. }
  split.
  { intros j Hj. subst w queue'.
    destruct (hairstyleQueue run) as [|h2 q] eqn:Eq; [done|].
    destruct (decide (i = j)) as [->|Hne].
    - by rewrite list_lookup_insert_eq in Hj.
    - rewrite list_lookup_insert_ne in Hj by done. by apply Hfin in Hj. }
  split; [by rewrite length_insert|].
  exact Eset.
Qed.

(** Along a schedule of settlements of the run. *)
Lemma RunInv_exec sched : ∀ D s s',
  RunInv hs c0 image gender r D s →
  exec s (runEvents r sched) = Some s' →
  ∃ D', RunInv hs c0 image gender r D' s'
        ∧ length D' = (length D + length sched)%nat.
Proof.
  induction sched as [|[i o] sched IH]; intros D s s' Hinv Hex; simpl in Hex.
  - injection Hex as <-. exists D. split; [done|]. simpl. lia.
  - destruct (workerSettles r i o s) as [s1|] eqn:Hstep; [|done].
    destruct (RunInv_step _ _ _ _ _ Hinv Hstep) as [h Hinv1].
    destruct (IH _ _ _ Hinv1 Hex) as (D' & Hinv' & Hlen).
    exists D'. split; [done|]. rewrite Hlen, length_app. simpl. lia.
Qed.

End RunProperties.

Lemma RunInv_start s0 image gender :
  uploadedImage s0 = Some image → truthy image = true →
  RunInv (hairstylesFor gender) (calls s0) image gender (length (runs s0)) []
    (handleGenerate gender s0).
Proof.
  intros Hup Himg. rewrite (handleGenerate_started _ _ _ Hup Himg).
  match goal with
  | |- RunInv _ _ _ _ _ _ (afterPromiseAll ?r' ?s1) =>
      destruct (afterPromiseAll_fields r' s1) as (_ & Eimg & _ & Eruns & _ & Ecalls);
      pose proof (afterPromiseAll_settled r' s1) as Eset;
      generalize dependent (afterPromiseAll r' s1);
      set (run := r')
  end.
  intros s1 Eimg Eruns Ecalls Eset. simpl in Eimg, Eruns, Ecalls.
  assert (workers run = map Awaiting (take concurrencyLimit (hairstylesFor gender))) as Hws.
  { subst run. cbn [workers]. rewrite hairstylesFor_length. simpl replicate.
    by rewrite app_nil_r. }
  exists run, (take concurrencyLimit (hairstylesFor gender)).
  rewrite Eruns, Ecalls, Hws.
  split; [by apply list_lookup_middle|].
  split; [done|]. split; [done|].
  split; [symmetry; apply take_drop|].
  split; [by rewrite awaited_map_Awaiting|].
  split; [done|].
  split; [intros h Hh; by apply elem_of_nil in Hh|].
  split.
  { intros j Hj. rewrite list_lookup_fmap in Hj.
    by destruct (take concurrencyLimit (hairstylesFor gender) !! j). }
  split; [|exact Eset].
  rewrite length_map, length_take, hairstylesFor_length. done.
Qed.

Lemma not_settled_awaiting ws :
  forallb isFinished ws = false → ∃ i h, ws !! i = Some (Awaiting h).
Proof.
  induction ws as [|[h|] ws IH]; simpl; [done| |].
  - intros _. by exists 0%nat, h.
  - intros (i & h & Hi)%IH. by exists (S i), h.
Qed.

(** The effect of one failing generation of a worker. *)
Lemma workerSettles_rejected s r i e run h :
  runs s !! r = Some run → workers run !! i = Some (Awaiting h) →
  ∃ s' run',
    step s (WorkerSettles r i (Rejected e)) = Some s'
    ∧ generatedImages s' = <[h := errorImage (itemErrorMessage e)]> (generatedImages s)
    ∧ runs s' !! r = Some run'
    ∧ workers run' = <[i := (workerLoop (hairstyleQueue run)).1]> (workers run)
    ∧ hairstyleQueue run' = (workerLoop (hairstyleQueue run)).2.
Proof.
  intros Hrun Hi. simpl. unfold workerSettles. rewrite Hrun, Hi.
  destruct (workerLoop (hairstyleQueue run)) as [w queue'].
  match goal with
  | |- ∃ _ _, Some (afterPromiseAll ?r' ?s1) = _ ∧ _ =>
      destruct (afterPromiseAll_fields r' s1) as (_ & Eimg & _ & Eruns & _ & _);
      exists (afterPromiseAll r' s1), r'
  end.
  rewrite Eimg, Eruns. simpl.
  split; [done|]. split; [done|]. split; [|done].
  apply list_lookup_insert_eq. by eapply lookup_lt_Some.
Qed.

(** A run taken alone. A run started by [handleGenerate] with an uploaded
    image, followed through any schedule of settlements of its own workers: the labels
    taken from the queue so far are a prefix of the category's label list,
    the generation calls of the run are exactly one per taken label, in
    that order and without repetition, and each taken label is either in
    flight or settled. A generation that fails is turned into an [Error]
    item carrying the message, and its worker goes on with the queue, the
    other workers being untouched. The run settles after exactly as many
    settlements as there are labels; until then some worker is in flight,
    and when it has settled every label has been attempted and every
    label's item is [Done] or [Error]. *)
Theorem handleGenerate_every_label_once :
  ∀ s0 image gender sched s',
    uploadedImage s0 = Some image → truthy image = true →
    let hs := hairstylesFor gender in
    let r := length (runs s0) in
    exec (handleGenerate gender s0) (runEvents r sched) = Some s' →
    ∃ run attempted,
      runs s' !! r = Some run
      ∧ hs = attempted ++ hairstyleQueue run
      ∧ calls s' = calls s0 ++ map (generateCall image gender) attempted
      ∧ NoDup attempted
      ∧ length attempted = (length sched + inFlight run)%nat
      ∧ (∀ i e,
           match workers run !! i with
           | Some (Awaiting h) =>
               ∃ s'' run'',
                 step s' (WorkerSettles r i (Rejected e)) = Some s''
                 ∧ generatedImages s''
                   = <[h := errorImage (itemErrorMessage e)]> (generatedImages s')
                 ∧ runs s'' !! r = Some run''
                 ∧ workers run'' = <[i := (workerLoop (hairstyleQueue run)).1]> (workers run)
                 ∧ hairstyleQueue run'' = (workerLoop (hairstyleQueue run)).2
           | _ => step s' (WorkerSettles r i (Rejected e)) = None
           end)
      ∧ (length sched ≤ length hs)%nat
      ∧ (if settled run
         then length sched = length hs
              ∧ attempted = hs
              ∧ appState s' = results_shown ∧ isLoading s' = false
              ∧ Forall (fun h => ∃ it, generatedImages s' !! h = Some it
                                      ∧ (status it = Done ∨ status it = Error)) hs
         else (length sched < length hs)%nat
              ∧ ∃ i h, workers run !! i = Some (Awaiting h)).
Proof.
  intros s0 image gender sched s' Hup Himg hs r Hex.
  pose proof (hairstylesFor_truthy gender : forallb truthy hs = true) as Htr.
  pose proof (hairstylesFor_NoDup gender : NoDup hs) as Hnd.
  pose proof (RunInv_start _ _ gender Hup Himg : RunInv hs _ _ _ r [] _) as Hstart.
  clearbody hs.
  destruct (RunInv_exec hs (calls s0) image gender r Htr Hnd sched [] _ _
              Hstart Hex) as (D & Hinv & HlenD).
  destruct Hinv as (run & pre & Hrun & Hi & Hg & Hhs & Hperm & Hcalls & HD & Hfin & Hlen & Hset).
  simpl in HlenD.
  assert (length pre = (length sched + inFlight run)%nat) as Hlp.
  { unfold inFlight. by rewrite Hperm, length_app, HlenD. }
  assert (length hs = (length pre + length (hairstyleQueue run))%nat) as Hlhs.
  { by rewrite Hhs at 1; rewrite length_app. }
  exists run, pre.
  split; [done|]. split; [done|]. split; [done|].
  split. { rewrite Hhs in Hnd. by apply NoDup_app in Hnd as [? _]. }
  split; [done|].
  split.
  { intros i e. destruct (workers run !! i) as [[h|]|] eqn:Hw.
    - by apply workerSettles_rejected.
    - simpl. unfold workerSettles. by rewrite Hrun, Hw.
    - simpl. unfold workerSettles. by rewrite Hrun, Hw. }
  split; [lia|].
  destruct (settled run) eqn:Hs.
  - unfold settled in Hs.
    assert (awaited (workers run) = []) as Haw by (by apply settled_awaited).
    assert (hairstyleQueue run = []) as Hq.
    { destruct (workers run) as [|w ws] eqn:Hws; [done|].
      apply (Hfin 0%nat). simpl in Hs. by destruct w. }
    rewrite Hq, app_nil_r in Hhs. subst pre.
    unfold inFlight in Hlp. rewrite Haw in Hlp. simpl in Hlp.
    split; [lia|]. split; [done|].
    destruct (Hset eq_refl) as [-> ->]. split; [done|]. split; [done|].
    apply Forall_forall. intros h Hh.
    rewrite Haw, app_nil_r in Hperm. rewrite Hperm in Hh.
    destruct (HD h Hh) as [o Ho]. exists (generationResult o).
    split; [done|]. destruct o; simpl; auto.
  - destruct (not_settled_awaiting _ Hs) as (i & h & Hw).
    split; [|by exists i, h].
    assert (0 < inFlight run)%nat; [|lia].
    unfold inFlight. apply awaited_lookup in Hw.
    destruct (awaited (workers run)); [by apply elem_of_nil in Hw|simpl; lia].
Qed.

Lemma handleGenerate_every_label_once_witness :
  let sched := [(0, Fulfilled picture1); (1, Rejected internalFault);
                (1, Fulfilled picture2); (0, Fulfilled picture1);
                (1, Rejected (NonError (js "{}") (js "[object Object]")));
                (0, Fulfilled picture2)]%nat in
  ∃ s', exec (handleGenerate (js "feminino") (imageLoaded photo initialApp))
          (runEvents 0 sched) = Some s'
        ∧ appState s' = results_shown
        ∧ calls s' = map (generateCall photo (js "feminino")) FEMALE_HAIRSTYLES
        ∧ Forall (fun h => ∃ it, generatedImages s' !! h = Some it
                                ∧ (status it = Done ∨ status it = Error))
            FEMALE_HAIRSTYLES.
Proof.
  intros sched.
  destruct (exec (handleGenerate (js "feminino") (imageLoaded photo initialApp))
              (runEvents 0 sched)) as [s'|] eqn:Hex;
    [|vm_compute in Hex; discriminate Hex].
  exists s'. split; [reflexivity|].
  destruct (handleGenerate_every_label_once (imageLoaded photo initialApp) photo
              (js "feminino") sched s' eq_refl eq_refl Hex)
    as (run & attempted & _ & _ & Hcalls & _ & _ & _ & _ & Hfinal).
  destruct (settled run).
  - destruct Hfinal as (_ & -> & Happ & _ & Hall). auto.
  - destruct Hfinal as [Hlt _]. vm_compute in Hlt. lia.
Defined.

(** ** Executions from the initial state *)

Lemma exec_invariant (P : App → Prop) :
  (∀ s ev s', P s → step s ev = Some s' → P s') →
  ∀ evs s s', P s → exec s evs = Some s' → P s'.
Proof.
  intros Hstep. induction evs as [|ev evs IH]; intros s s' HP Hex; simpl in Hex.
  - by injection Hex as <-.
  - destruct (step s ev) as [s1|] eqn:Hs; [|done]. eauto.
Qed.

Lemma reachable_invariant (P : App → Prop) :
  P initialApp →
  (∀ s ev s', P s → step s ev = Some s' → P s') →
  ∀ s, reachable s → P s.
Proof. intros H0 Hstep s [evs Hex]. by eapply exec_invariant. Qed.


(** ** The pool never exceeds its limit *)

Lemma startWorkers_length n queue : length (startWorkers n queue).1 = n.
Proof.
  revert queue; induction n as [|n IH]; intros queue; simpl; [done|].
  destruct (workerLoop queue) as [w queue1]. specialize (IH queue1).
  destruct (startWorkers n queue1) as [ws queue2]. simpl in *. by rewrite IH.
Qed.

Lemma handleRegenerateDecade_runs h s : runs (handleRegenerateDecade h s) = runs s.
Proof.
  unfold handleRegenerateDecade.
  destruct (uploadedImage s) as [image|], (selectedGender s) as [gender|]; try done.
  destruct (negb (truthy image) || negb (truthy gender)); [done|].
  by destruct (isPending _).
Qed.

Lemma handleRemixDecade_runs h prompt s : runs (handleRemixDecade h prompt s) = runs s.
Proof.
  unfold handleRemixDecade.
  destruct (generatedImages s !! h ≫= url) as [src|]; [|done].
  destruct (negb (truthy src) || negb (truthy prompt)); [done|].
  by destruct (isPending _).
Qed.

Lemma step_pool_size s ev s' :
  Forall (fun run => length (workers run) = concurrencyLimit) (runs s) →
  step s ev = Some s' →
  Forall (fun run => length (workers run) = concurrencyLimit) (runs s').
Proof.
  intros Hinv Hstep. destruct ev as [result|gender|h|h prompt| |r i outcome|i outcome];
    simpl in Hstep.
  - by injection Hstep as <-.
  - injection Hstep as <-. unfold handleGenerate.
    destruct (uploadedImage s) as [image|]; [|done].
    destruct (negb (truthy image)); [done|].
    pose proof (startWorkers_length concurrencyLimit (hairstylesFor gender)) as Hlen.
    destruct (startWorkers concurrencyLimit (hairstylesFor gender)) as [ws queue].
    match goal with
    | |- context [afterPromiseAll ?r' ?s1] =>
        destruct (afterPromiseAll_fields r' s1) as (_ & _ & _ & -> & _ & _)
    end.
    simpl. apply Forall_app. split; [done|]. by apply Forall_singleton.
  - injection Hstep as <-. by rewrite handleRegenerateDecade_runs.
  - injection Hstep as <-. by rewrite handleRemixDecade_runs.
  - by injection Hstep as <-.
  - unfold workerSettles in Hstep.
    destruct (runs s !! r) as [run|] eqn:Hrun; [|done].
    destruct (workers run !! i) as [[h|]|]; try done.
    destruct (workerLoop (hairstyleQueue run)) as [w queue'].
    injection Hstep as <-.
    match goal with
    | |- context [afterPromiseAll ?r' ?s1] =>
        destruct (afterPromiseAll_fields r' s1) as (_ & _ & _ & -> & _ & _)
    end.
    simpl. apply Forall_insert; [done|]. simpl. rewrite length_insert.
    by eapply (Forall_lookup_1 _ _ _ _ Hinv).
  - unfold oneOffSettles in Hstep.
    destruct (oneOffs s !! i) as [[h|h src]|]; [| |done]; by injection Hstep as <-.
Qed.

(** C4. In every reachable state each run of the pool has at most
    [concurrencyLimit] generation calls in flight. The retry and the remix
    handlers do not touch the pool, and they do run next to it: there is an
    execution in which the pool of a run is full while a retry and a remix
    are in flight as well. *)
Theorem pool_concurrency_limit :
  ∀ s,
    reachable s →
    Forall (fun run => (inFlight run ≤ concurrencyLimit)%nat) (runs s)
    ∧ (∀ h, runs (handleRegenerateDecade h s) = runs s)
    ∧ (∀ h prompt, runs (handleRemixDecade h prompt s) = runs s)
    ∧ ∃ evs s1 run,
        exec initialApp evs = Some s1
        ∧ runs s1 = [run]
        ∧ settled run = false
        ∧ inFlight run = concurrencyLimit
        ∧ oneOffs s1 = [Regenerating buzz; Remixing undercut picture2].
Proof.
  intros s Hs. split.
  { assert (Forall (fun run => length (workers run) = concurrencyLimit) (runs s)) as H.
    { revert s Hs. apply reachable_invariant; [by constructor|]. apply step_pool_size. }
    eapply Forall_impl; [exact H|]. intros run Hlen. simpl in Hlen.
    unfold inFlight. rewrite <- Hlen. apply awaited_length. }
  split; [intros h; apply handleRegenerateDecade_runs|].
  split; [intros h prompt; apply handleRemixDecade_runs|].
  exists [ImageLoaded photo; Generate (js "masculino");
          WorkerSettles 0 0 (Fulfilled picture1);
          WorkerSettles 0 1 (Fulfilled picture2);
          Regenerate buzz; Remix undercut (js "mais curto")].
  eexists. eexists. split; [vm_compute; reflexivity|].
  split; [reflexivity|]. by vm_compute.
Qed.

Lemma pool_concurrency_limit_witness :
  Forall (fun run => (inFlight run ≤ concurrencyLimit)%nat)
    (runs (handleGenerate (js "masculino") (imageLoaded photo initialApp))).
Proof.
  apply (pool_concurrency_limit
           (handleGenerate (js "masculino") (imageLoaded photo initialApp))).
  by exists [ImageLoaded photo; Generate (js "masculino")].
Defined.

(** ** Retry of one item *)



(** ** Remix of one item *)



(** C10. For a label whose item is [Done] with a result image, the remix
    with an empty instruction returns the state as it is: no call is
    issued, no activation is started and the items are unchanged. *)
Theorem handleRemixDecade_empty_instruction :
  ∀ s hairstyle it resultUrl,
    generatedImages s !! hairstyle = Some it →
    status it = Done → url it = Some resultUrl →
    let s' := handleRemixDecade hairstyle [] s in
    s' = s
    ∧ calls s' = calls s
    ∧ oneOffs s' = oneOffs s
    ∧ generatedImages s' = generatedImages s.
Proof.
  intros s hairstyle it resultUrl Hit _ Hurl s'.
  assert (s' = s) as ->; [|done].
  subst s'. unfold handleRemixDecade. rewrite Hit. simpl. rewrite Hurl.
  by rewrite orb_true_r.
Qed.

Lemma handleRemixDecade_empty_instruction_witness :
  let s := afterEvents [ImageLoaded photo; Generate (js "masculino");
                        WorkerSettles 0 0 (Fulfilled picture1)] in
  generatedImages s !! buzz = Some (doneImage picture1)
  ∧ handleRemixDecade buzz [] s = s.
Proof.
  intros s.
  assert (generatedImages s !! buzz = Some (doneImage picture1)) as Hit
    by (vm_compute; reflexivity).
  split; [exact Hit|].
  exact (proj1 (handleRemixDecade_empty_instruction s buzz (doneImage picture1) picture1
                  Hit eq_refl eq_refl)).
Defined.

(** ** The items of reachable states *)






Lemma elem_of_delete_other {A} (l : list A) i x y :
  x ∈ l → l !! i = Some y → x ≠ y → x ∈ delete i l.
Proof.
  revert i; induction l as [|a l IH]; intros [|i] Hx Hi Hne; simpl in *; try done.
  - injection Hi as ->. apply elem_of_cons in Hx as [->|Hx]; done.
  - apply elem_of_cons in Hx as [->|Hx]; [apply list_elem_of_here|].
    apply list_elem_of_further. by eapply IH.
Qed.





(** * Further properties of the service *)

(** ** Extraction of the image *)

Lemma find_first {A} (f : A → bool) (l : list A) :
  match find f l with
  | Some x => ∃ pre post, l = pre ++ x :: post
                          ∧ forallb (fun y => negb (f y)) pre = true ∧ f x = true
  | None => forallb (fun y => negb (f y)) l = true
  end.
Proof.
  induction l as [|a l IH]; simpl; [done|].
  destruct (f a) eqn:Ha.
  - by exists [], l.
  - destruct (find f l) as [x|]; simpl; [|done].
    destruct IH as (pre & post & -> & Hpre & Hx).
    exists (a :: pre), post. simpl. by rewrite Ha.
Qed.

Lemma processGeminiResponse_fulfilled response generated :
  processGeminiResponse response = Fulfilled generated →
  ∃ b, generated = encode (mimeType b) (data b).
Proof.
  unfold processGeminiResponse.
  destruct (match candidateParts response with
            | Some ps => find hasInlineData ps | None => None end) as [[[b|]]|];
    intros [= <-]. by exists b.
Qed.

(** X1. The extraction returns the data URL of the first part that
    carries inline data, whatever precedes it and whatever text the
    response has; it fails exactly when there are no parts or no part
    carries inline data, and the error then quotes the text of the
    response, or the default sentence when that text is missing or empty. *)
Theorem processGeminiResponse_first_image :
  ∀ response,
    match processGeminiResponse response with
    | Fulfilled imageUrl =>
        ∃ pre b post,
          candidateParts response = Some (pre ++ {| inlineData := Some b |} :: post)
          ∧ forallb (fun p => negb (hasInlineData p)) pre = true
          ∧ imageUrl = js "data:" ++ mimeType b ++ js ";base64," ++ data b
    | Rejected e =>
        match candidateParts response with
        | Some ps => forallb (fun p => negb (hasInlineData p)) ps = true
        | None => True
        end
        ∧ e = ErrorObj (js "O modelo de IA respondeu com texto em vez de uma imagem: "
                        ++ dquote
                        ++ match text response with
                           | Some (c :: t) => c :: t
                           | _ => js "Nenhuma resposta de texto recebida."
                           end
                        ++ dquote)
    end.
Proof.
  intros [[ps|] t]; unfold processGeminiResponse; simpl.
  - pose proof (find_first hasInlineData ps) as Hf.
    destruct (find hasInlineData ps) as [[[b|]]|].
    + destruct Hf as (pre & post & -> & Hpre & _). by exists pre, b, post.
    + by destruct Hf as (pre & post & _ & _ & Hx).
    + split; [done|]. by destruct t as [[|c t]|].
  - split; [done|]. by destruct t as [[|c t]|].
Qed.

(** ** Composing and parsing data URLs *)

Lemma truthy_nonempty (s : jsstring) : truthy s = true ↔ s ≠ [].
Proof. by destruct s. Qed.

Lemma isImageMediaType_spec m :
  isImageMediaType m = true
  ↔ ∃ w, w ≠ [] ∧ forallb isWordChar w = true ∧ m = js "image/" ++ w.
Proof.
  unfold isImageMediaType. split.
  - destruct (stripPrefix (js "image/") m) as [w|] eqn:Hs; [|done].
    intros [Hw Hall]%andb_true_iff. exists w.
    split; [by apply truthy_nonempty|]. split; [done|]. by apply stripPrefix_Some.
  - intros (w & Hne & Hall & ->). rewrite stripPrefix_app.
    apply andb_true_iff. split; [by apply truthy_nonempty|done].
Qed.

(** X2. Parsing a composed data URL gives back the media type and the
    encoded part exactly when the media type is [image/] followed by one
    or more word characters and the encoded part has no line terminator. *)
Theorem decode_of_encode :
  ∀ m d,
    matchDataUrl (encode m d) = Some (m, d)
    ↔ isImageMediaType m = true ∧ noLineTerminator d = true.
Proof.
  intros m d. rewrite matchDataUrl_spec, isImageMediaType_spec. split.
  - intros (w & Hne & Hw & -> & Hd & _). split; [by exists w|done].
  - intros [(w & Hne & Hw & ->) Hd]. by exists w.
Qed.

Lemma decode_of_encode_witness :
  matchDataUrl (encode (js "image/webp") (js "UklGRg==")) = Some (js "image/webp", js "UklGRg==")
  ∧ isImageMediaType (js "image/svg+xml") = false.
Proof.
  split; [|reflexivity].
  apply (proj2 (decode_of_encode (js "image/webp") (js "UklGRg=="))).
  split; reflexivity.
Defined.

(** A media type with a character outside [\w] is not given back: the
    parse fails, or splits the string elsewhere. *)
Example decode_of_encode_other_split :
  matchDataUrl (encode (js "image/svg+xml") (js "PHN2Zz4=")) = None
  ∧ matchDataUrl (encode (js "image/png;base64,AAAA") (js "QkJC"))
    = Some (js "image/png", js "AAAA;base64,QkJC").
Proof. split; reflexivity. Qed.

Lemma startsWith_app p s : startsWith p (p ++ s) = true.
Proof. induction p as [|a p IH]; simpl; [done|]. by rewrite N.eqb_refl. Qed.

Lemma startsWith_stripPrefix p s :
  startsWith p s = false → stripPrefix p s = None.
Proof.
  revert s; induction p as [|a p IH]; intros [|b s]; simpl; try done.
  destruct (a =? b); [apply IH|done].
Qed.

(** ** The clients *)

Section ClientProperties.

Context {W : Type}.
Variable gc : Request → W → Settled GenerateContentResponse * W.

Lemma remixImage_unfold imageDataUrl prompt m d (st : St) :
  matchDataUrl imageDataUrl = Some (m, d) →
  remixImage gc imageDataUrl prompt st
  = match attemptGroup gc (InlineDataPart m d) (TextPart prompt) st with
    | (Fulfilled image, st') => (Fulfilled image, st')
    | (Rejected e, st') =>
        (Rejected (ErrorObj (js "O modelo de IA falhou ao modificar a imagem. Detalhes: "
                             ++ messageOrJson e)), st')
    end.
Proof. intros Hm. unfold remixImage. by rewrite Hm. Qed.

Lemma generateDecadeImage_unfold imageDataUrl prompt hairstyle gender m d (st : St) :
  matchDataUrl imageDataUrl = Some (m, d) →
  generateDecadeImage gc imageDataUrl prompt hairstyle gender st
  = match attemptGroup gc (InlineDataPart m d) (TextPart prompt) st with
    | (Fulfilled image, st1) => (Fulfilled image, st1)
    | (Rejected e, st1) =>
        if isNoImageError (messageOrJson e)
        then
          if negb (truthy hairstyle) || negb (truthy gender)
          then (Rejected e, st1)
          else
            match attemptGroup gc (InlineDataPart m d)
                    (TextPart (getFallbackPrompt hairstyle gender)) st1 with
            | (Fulfilled image, st2) => (Fulfilled image, st2)
            | (Rejected e2, st2) => (Rejected (fallbackFailed e2), st2)
            end
        else (Rejected (generationFailed e), st1)
    end.
Proof.
  intros Hm. unfold generateDecadeImage. rewrite Hm.
  unfold tryCatch at 1. fold (attemptGroup gc (InlineDataPart m d) (TextPart prompt)).
  destruct (attemptGroup gc (InlineDataPart m d) (TextPart prompt) st) as [[image|e] st1];
    [done|].
  destruct (isNoImageError (messageOrJson e)); [|done].
  destruct (negb (truthy hairstyle) || negb (truthy gender)); [done|].
  unfold tryCatch.
  fold (attemptGroup gc (InlineDataPart m d) (TextPart (getFallbackPrompt hairstyle gender))).
  by destruct (attemptGroup gc (InlineDataPart m d)
                 (TextPart (getFallbackPrompt hairstyle gender)) st1) as [[image|e2] st2].
Qed.

(** An attempt-group yields a composed data URL or fails. *)
Lemma attemptGroup_fulfilled imagePart textPart (st : St) image :
  (attemptGroup gc imagePart textPart st).1 = Fulfilled image →
  startsWith (js "data:") image = true.
Proof.
  unfold attemptGroup, bind, settle.
  destruct (callGeminiWithRetry gc imagePart textPart st) as [[r|e] st']; [|done].
  simpl. destruct (processGeminiResponse r) as [u|e] eqn:Hr; [|done].
  apply processGeminiResponse_fulfilled in Hr as [b ->]. by intros [= <-].
Qed.

End ClientProperties.

Lemma backoffTrace_budget req k :
  (1 ≤ k ≤ 3)%nat →
  callCount (backoffTrace req k 1) = k ∧ totalDelay (backoffTrace req k 1) ≤ 3000.
Proof.
  intros Hk. destruct k as [|[|[|[|k]]]]; try lia; by vm_compute.
Qed.

Lemma callCount_app tr1 tr2 : callCount (tr1 ++ tr2) = (callCount tr1 + callCount tr2)%nat.
Proof. induction tr1 as [|[req|ms] tr1 IH]; simpl; lia. Qed.

Lemma totalDelay_app tr1 tr2 : totalDelay (tr1 ++ tr2) = totalDelay tr1 + totalDelay tr2.
Proof. induction tr1 as [|[req|ms] tr1 IH]; simpl; lia. Qed.

(** X3. The remix client makes one attempt-group and never a second one:
    its result is the image of that group, or the remix failure wrapping
    the message of whatever made the group fail, a missing image
    included; the transport sees one to three calls with the source image
    and the instruction, and nothing else. *)
Theorem remixImage_single_group :
  ∀ W (gc : Request → W → Settled GenerateContentResponse * W)
    imageDataUrl prompt (st : St) mimeType base64Data,
    matchDataUrl imageDataUrl = Some (mimeType, base64Data) →
    let imagePart := InlineDataPart mimeType base64Data in
    let group := attemptGroup gc imagePart (TextPart prompt) st in
    let out := remixImage gc imageDataUrl prompt st in
    out = (match group.1 with
           | Fulfilled image => Fulfilled image
           | Rejected e =>
               Rejected (ErrorObj
                           (js "O modelo de IA falhou ao modificar a imagem. Detalhes: "
                            ++ messageOrJson e))
           end, group.2)
    ∧ ∃ k : nat,
        (1 ≤ k ≤ 3)%nat
        ∧ trace out.2
          = trace st ++ backoffTrace (modelRequest imagePart (TextPart prompt)) k 1.
Proof.
  intros W gc imageDataUrl prompt st mimeType base64Data Hm imagePart group out.
  assert (out = (match group.1 with
                 | Fulfilled image => Fulfilled image
                 | Rejected e =>
                     Rejected (ErrorObj
                                 (js "O modelo de IA falhou ao modificar a imagem. Detalhes: "
                                  ++ messageOrJson e))
                 end, group.2)) as Hout.
  { subst out group. rewrite (remixImage_unfold gc _ _ _ _ _ Hm). fold imagePart.
    by destruct (attemptGroup gc imagePart (TextPart prompt) st) as [[image|e] st']. }
  split; [exact Hout|].
  destruct (attemptGroup_trace gc imagePart (TextPart prompt) st) as (k & Hk & Ht).
  exists k. split; [done|]. by rewrite Hout.
Qed.

Lemma remixImage_single_group_witness :
  remixImage scripted picture1 (js "mais curto")
    {| world := [Fulfilled refusal; Fulfilled pictured]; trace := [] |}
  = (Rejected (ErrorObj
                 (js "O modelo de IA falhou ao modificar a imagem. Detalhes: "
                  ++ messageOrJson (noImageError (Some (js "I cannot edit this photo."))))),
     {| world := [Fulfilled pictured];
        trace := [Call (modelRequest (InlineDataPart (js "image/png") (js "QkJCQg=="))
                          (TextPart (js "mais curto")))] |}).
Proof.
  exact (proj1 (remixImage_single_group _ scripted picture1 (js "mais curto")
                  {| world := [Fulfilled refusal; Fulfilled pictured]; trace := [] |}
                  (js "image/png") (js "QkJCQg==") eq_refl)).
Defined.

(** A media type that does not begin with [image/] cannot be completed
    to one by what follows it in a data URL. *)
Lemma stripPrefix_image_app m t :
  startsWith (js "image/") m = false →
  stripPrefix (js "image/") (m ++ js ";base64," ++ t) = None.
Proof.
  change (js "image/") with [105; 109; 97; 103; 101; 47].
  change (js ";base64,") with (59 :: js "base64,").
  destruct m as [|c1 [|c2 [|c3 [|c4 [|c5 [|c6 m]]]]]];
    cbn [startsWith stripPrefix app];
    repeat (match goal with
            | |- context [?a =? 59] => change (a =? 59) with false
            | |- context [?a =? ?b] => is_var b; destruct (a =? b)
            end; cbn [andb]);
    done.
Qed.

(** X4. What a generation returns can be remixed when the media type and
    the data of the returned part are ones the pattern accepts: the remix
    then sends that very media type and data to the model. When the media
    type does not begin with [image/], the remix fails with the
    invalid-format error without calling the model. *)
Theorem remixImage_of_generated :
  ∀ W (gc : Request → W → Settled GenerateContentResponse * W)
    response prompt (st : St),
    match processGeminiResponse response with
    | Rejected _ => True
    | Fulfilled generated =>
        ∃ b, generated = encode (mimeType b) (data b)
             ∧ if isImageMediaType (mimeType b) && noLineTerminator (data b)
               then
                 ∃ k : nat,
                   (1 ≤ k ≤ 3)%nat
                   ∧ trace (remixImage gc generated prompt st).2
                     = trace st
                       ++ backoffTrace
                            (modelRequest (InlineDataPart (mimeType b) (data b))
                               (TextPart prompt)) k 1
               else
                 if startsWith (js "image/") (mimeType b)
                 then True
                 else remixImage gc generated prompt st = (Rejected invalidImageFormat, st)
    end.
Proof.
  intros W gc response prompt st.
  destruct (processGeminiResponse response) as [generated|e] eqn:Hr; [|done].
  apply processGeminiResponse_fulfilled in Hr as [b ->]. exists b. split; [done|].
  destruct (isImageMediaType (mimeType b) && noLineTerminator (data b)) eqn:Hv.
  - apply andb_true_iff in Hv as [Hm Hd].
    assert (matchDataUrl (encode (mimeType b) (data b)) = Some (mimeType b, data b)) as Hdec.
    { apply matchDataUrl_spec. apply isImageMediaType_spec in Hm as (w & ? & ? & ?).
      by exists w. }
    rewrite (remixImage_unfold gc _ _ _ _ _ Hdec).
    destruct (attemptGroup_trace gc (InlineDataPart (mimeType b) (data b))
                (TextPart prompt) st) as (k & Hk & Ht).
    exists k. split; [done|].
    by destruct (attemptGroup gc (InlineDataPart (mimeType b) (data b))
                   (TextPart prompt) st) as [[image|e] st'].
  - destruct (startsWith (js "image/") (mimeType b)) eqn:Hs; [done|].
    unfold remixImage, matchDataUrl.
    change (js "data:" ++ mimeType b ++ js ";base64," ++ data b)
      with (encode (mimeType b) (data b)).
    unfold encode. rewrite stripPrefix_app.
    by rewrite (stripPrefix_image_app _ _ Hs).
Qed.

(** X5. With a non-empty hairstyle and gender, whatever the generation
    client rejects with is an [Error] object: the invalid-format error or
    one of its two wrappers; the remix client always rejects with the
    invalid-format error or its own wrapper. The message stored in the
    item is therefore that message, never the generic one. What the
    clients return is a data URL. *)
Theorem client_outcomes_are_wrapped :
  ∀ W (gc : Request → W → Settled GenerateContentResponse * W)
    imageDataUrl prompt hairstyle gender (st : St),
    truthy hairstyle = true → truthy gender = true →
    match (generateDecadeImage gc imageDataUrl prompt hairstyle gender st).1 with
    | Fulfilled image => startsWith (js "data:") image = true
    | Rejected e =>
        ∃ m, e = ErrorObj m ∧ itemErrorMessage e = m
             ∧ (e = invalidImageFormat
                ∨ startsWith (js "O modelo de IA falhou com os prompts original e de recurso. Último erro: ") m = true
                ∨ startsWith (js "O modelo de IA não conseguiu gerar uma imagem. Detalhes: ") m = true)
    end
    ∧ match (remixImage gc imageDataUrl prompt st).1 with
      | Fulfilled image => startsWith (js "data:") image = true
      | Rejected e =>
          ∃ m, e = ErrorObj m ∧ itemErrorMessage e = m
               ∧ (e = invalidImageFormat
                  ∨ startsWith (js "O modelo de IA falhou ao modificar a imagem. Detalhes: ") m = true)
      end.
Proof.
  intros W gc imageDataUrl prompt hairstyle gender st Hh Hg.
  destruct (matchDataUrl imageDataUrl) as [[m d]|] eqn:Hm.
  2:{ unfold generateDecadeImage, remixImage. rewrite Hm. unfold throw. cbn [fst].
      split; eexists; (split; [reflexivity|]); split; auto. }
  rewrite (generateDecadeImage_unfold gc _ _ _ _ _ _ _ Hm),
    (remixImage_unfold gc _ _ _ _ _ Hm), Hh, Hg. simpl negb. cbn [orb].
  pose proof (attemptGroup_fulfilled gc (InlineDataPart m d) (TextPart prompt) st) as H1.
  destruct (attemptGroup gc (InlineDataPart m d) (TextPart prompt) st) as [[image|e] st1].
  { split; by apply H1. }
  split.
  - destruct (isNoImageError (messageOrJson e)).
    + pose proof (attemptGroup_fulfilled gc (InlineDataPart m d)
                    (TextPart (getFallbackPrompt hairstyle gender)) st1) as H2.
      destruct (attemptGroup gc (InlineDataPart m d)
                  (TextPart (getFallbackPrompt hairstyle gender)) st1) as [[image|e2] st2].
      * by apply H2.
      * cbn [fst]. eexists. split; [reflexivity|]. split; [reflexivity|].
        right; left. apply startsWith_app.
    + cbn [fst]. eexists. split; [reflexivity|]. split; [reflexivity|].
      right; right. apply startsWith_app.
  - cbn [fst]. eexists. split; [reflexivity|]. split; [reflexivity|].
    right. apply startsWith_app.
Qed.

Lemma client_outcomes_are_wrapped_witness :
  let thrown := NonError (js "{}") (js "[object Object]") in
  ∃ m, generationFailed thrown = ErrorObj m
       ∧ itemErrorMessage (generationFailed thrown) = m
       ∧ (generationFailed thrown = invalidImageFormat
          ∨ startsWith (js "O modelo de IA falhou com os prompts original e de recurso. Último erro: ") m = true
          ∨ startsWith (js "O modelo de IA não conseguiu gerar uma imagem. Detalhes: ") m = true).
Proof.
  exact (proj1 (client_outcomes_are_wrapped _ scripted photo (js "p") buzz (js "masculino")
                  {| world := [Rejected (NonError (js "{}") (js "[object Object]"))];
                     trace := [] |} eq_refl eq_refl)).
Defined.

(** Without a gender the no-image failure is rethrown as it is: a thrown
    value that is not an [Error] then reaches the caller, and the item
    shows the generic message. *)
Example generateDecadeImage_rethrows_non_error :
  let thrown := NonError (dquote ++ noImagePhrase ++ dquote) noImagePhrase in
  (generateDecadeImage scripted photo (js "p") buzz []
     {| world := [Rejected thrown]; trace := [] |}).1 = Rejected thrown
  ∧ itemErrorMessage thrown = js "An unknown error occurred.".
Proof. split; reflexivity. Qed.

(** X6. A generation makes at most six transport calls and waits at most
    6000 ms in total; a remix makes at most three calls and waits at most
    3000 ms. Neither does anything else to the trace. *)
Theorem client_transport_budget :
  ∀ W (gc : Request → W → Settled GenerateContentResponse * W)
    imageDataUrl prompt hairstyle gender (st : St),
    (∃ tr, trace (generateDecadeImage gc imageDataUrl prompt hairstyle gender st).2
           = trace st ++ tr
           ∧ (callCount tr ≤ 6)%nat ∧ totalDelay tr ≤ 6000)
    ∧ (∃ tr, trace (remixImage gc imageDataUrl prompt st).2 = trace st ++ tr
             ∧ (callCount tr ≤ 3)%nat ∧ totalDelay tr ≤ 3000).
Proof.
  intros W gc imageDataUrl prompt hairstyle gender st.
  destruct (matchDataUrl imageDataUrl) as [[m d]|] eqn:Hm.
  2:{ unfold generateDecadeImage, remixImage. rewrite Hm. simpl.
      split; exists []; rewrite app_nil_r; simpl; repeat split; lia. }
  rewrite (generateDecadeImage_unfold gc _ _ _ _ _ _ _ Hm),
    (remixImage_unfold gc _ _ _ _ _ Hm).
  destruct (attemptGroup_trace gc (InlineDataPart m d) (TextPart prompt) st)
    as (k1 & Hk1 & Ht1).
  destruct (backoffTrace_budget
              (modelRequest (InlineDataPart m d) (TextPart prompt)) k1 Hk1) as [Hc1 Hd1].
  destruct (attemptGroup gc (InlineDataPart m d) (TextPart prompt) st) as [[image|e] st1];
    simpl in Ht1.
  { split; eexists; (split; [exact Ht1|]); split; lia. }
  split; [|eexists; (split; [exact Ht1|]); split; lia].
  destruct (isNoImageError (messageOrJson e));
    [|eexists; (split; [exact Ht1|]); split; lia].
  destruct (negb (truthy hairstyle) || negb (truthy gender));
    [eexists; (split; [exact Ht1|]); split; lia|].
  destruct (attemptGroup_trace gc (InlineDataPart m d)
              (TextPart (getFallbackPrompt hairstyle gender)) st1) as (k2 & Hk2 & Ht2).
  destruct (backoffTrace_budget
              (modelRequest (InlineDataPart m d)
                 (TextPart (getFallbackPrompt hairstyle gender))) k2 Hk2) as [Hc2 Hd2].
  destruct (attemptGroup gc (InlineDataPart m d)
              (TextPart (getFallbackPrompt hairstyle gender)) st1) as [[image|e2] st2];
    simpl in Ht2; rewrite Ht1, <- app_assoc in Ht2;
    eexists; (split; [exact Ht2|]); rewrite callCount_app, totalDelay_app; split; lia.
Qed.

(** * Further properties of the orchestrator *)

(** ** Starting a run *)

Lemma initialImages_lookup (hs : list jsstring) (m : gmap (list N) GeneratedImage)
    (h : jsstring) :
  foldl (fun acc hairstyle => <[hairstyle := pendingImage]> acc) m hs !! h
  = if bool_decide (h ∈ hs) then Some pendingImage else m !! h.
Proof.
  revert m; induction hs as [|h0 hs IH]; intros m; simpl; [done|].
  rewrite IH. destruct (decide (h ∈ hs)) as [Hin|Hnin].
  - rewrite !bool_decide_eq_true_2; [done|by apply list_elem_of_further|done].
  - rewrite (bool_decide_eq_false_2 _ Hnin).
    destruct (decide (h0 = h)) as [->|Hne].
    + rewrite lookup_insert_eq, bool_decide_eq_true_2; [done|apply list_elem_of_here].
    + rewrite lookup_insert_ne by done. rewrite bool_decide_eq_false_2; [done|].
      intros [?|?]%elem_of_cons; congruence.
Qed.

Lemma handleGenerate_not_settled gender image :
  settled {| runImage := image; runGender := gender;
             hairstyleQueue := drop concurrencyLimit (hairstylesFor gender);
             workers := map Awaiting (take concurrencyLimit (hairstylesFor gender))
                        ++ replicate (concurrencyLimit - length (hairstylesFor gender))
                             Finished |} = false.
Proof. unfold hairstylesFor. by destruct (bool_decide _). Qed.

(** X7. Without an uploaded image [handleGenerate] does nothing. With
    one, the items become exactly the labels of the chosen category, each
    a fresh [Pending] item: every item of the previous run is dropped. The
    activations in flight are kept as they are, a new run is added after
    them, and generation calls are issued for the first two labels. *)
Theorem handleGenerate_fresh_items :
  ∀ s gender,
    let s' := handleGenerate gender s in
    match uploadedImage s with
    | Some (c :: image') =>
        let image := c :: image' in
        (∀ h, generatedImages s' !! h
              = if bool_decide (h ∈ hairstylesFor gender) then Some pendingImage else None)
        ∧ (∃ run, runs s' = runs s ++ [run] ∧ inFlight run = concurrencyLimit)
        ∧ oneOffs s' = oneOffs s
        ∧ calls s' = calls s ++ map (generateCall image gender)
                                 (take concurrencyLimit (hairstylesFor gender))
        ∧ selectedGender s' = Some gender
        ∧ appState s' = generating ∧ isLoading s' = true
        ∧ uploadedImage s' = uploadedImage s
    | _ => s' = s
    end.
Proof.
  intros s gender s'. subst s'.
  destruct (uploadedImage s) as [[|c image']|] eqn:Hup.
  - unfold handleGenerate. by rewrite Hup.
  - rewrite (handleGenerate_started s (c :: image') gender Hup eq_refl).
    unfold afterPromiseAll. rewrite handleGenerate_not_settled. simpl.
    split; [intros h; by rewrite initialImages_lookup, lookup_empty|].
    split; [|done]. eexists. split; [reflexivity|].
    unfold inFlight, hairstylesFor. by destruct (bool_decide _).
  - unfold handleGenerate. by rewrite Hup.
Qed.

(** ** Work in flight is not cancelled *)

Lemma handleGenerate_keeps_runs gender s r run :
  runs s !! r = Some run → runs (handleGenerate gender s) !! r = Some run.
Proof.
  intros Hr. unfold handleGenerate.
  destruct (uploadedImage s) as [image|]; [|done].
  destruct (negb (truthy image)); [done|].
  destruct (startWorkers concurrencyLimit (hairstylesFor gender)) as [ws queue].
  match goal with
  | |- context [afterPromiseAll ?r' ?s1] =>
      destruct (afterPromiseAll_fields r' s1) as (_ & _ & _ & -> & _ & _)
  end.
  simpl. by apply lookup_app_l_Some.
Qed.

(** X8. Neither a reset nor a new run cancels what is in flight. After a
    reset, the settlement of a retry, of a remix or of a worker of an old
    run still writes its item, into the emptied items. After a new run has
    started, the settlement of a worker of an old run still writes the
    item of its label, over the [Pending] item of the new run if the label
    is one of its labels. *)
Theorem in_flight_work_is_not_cancelled :
  ∀ s gender r i j outcome,
    match oneOffs s !! j with
    | Some op =>
        ∃ s', step (handleReset s) (OneOffSettles j outcome) = Some s'
              ∧ generatedImages s' = {[ oneOffLabel op := oneOffResult op outcome ]}
    | None => True
    end
    ∧ match runs s !! r ≫= (fun run => workers run !! i) with
      | Some (Awaiting h) =>
          (∃ s', step (handleReset s) (WorkerSettles r i outcome) = Some s'
                 ∧ generatedImages s' = {[ h := generationResult outcome ]})
          ∧ (∃ s', step (handleGenerate gender s) (WorkerSettles r i outcome) = Some s'
                   ∧ generatedImages s'
                     = <[h := generationResult outcome]>
                         (generatedImages (handleGenerate gender s)))
      | _ => True
      end.
Proof.
  intros s gender r i j outcome. split.
  - destruct (oneOffs s !! j) as [op|] eqn:Hop; [|done].
    simpl. unfold oneOffSettles. simpl. rewrite Hop.
    destruct op as [h|h src]; eexists; (split; [reflexivity|]); simpl;
      by rewrite insert_empty.
  - destruct (runs s !! r) as [run|] eqn:Hrun; [|done]. simpl.
    destruct (workers run !! i) as [[h|]|] eqn:Hw; try done.
    split.
    + unfold workerSettles. simpl. rewrite Hrun, Hw.
      destruct (workerLoop (hairstyleQueue run)) as [w queue'].
      eexists. split; [reflexivity|].
      match goal with
      | |- context [afterPromiseAll ?r' ?s1] =>
          destruct (afterPromiseAll_fields r' s1) as (_ & -> & _)
      end.
      simpl. by rewrite insert_empty.
    + unfold workerSettles.
      rewrite (handleGenerate_keeps_runs gender s r run Hrun), Hw.
      destruct (workerLoop (hairstyleQueue run)) as [w queue'].
      eexists. split; [reflexivity|].
      match goal with
      | |- context [afterPromiseAll ?r' ?s1] =>
          destruct (afterPromiseAll_fields r' s1) as (_ & -> & _)
      end.
      done.
Qed.

(** ** The [Pending] guard *)

Lemma isPending_pendingImage : isPending (Some pendingImage) = true.
Proof. done. Qed.

Lemma isPending_markPending it : isPending (Some (markPending it)) = true.
Proof. by destruct it. Qed.

Lemma isPending_oneOffResult op outcome : isPending (Some (oneOffResult op outcome)) = false.
Proof. by destruct op, outcome. Qed.

Lemma step_one_off_exclusion s ev s' :
  isOneOffEvent ev = true →
  NoDup (oneOffLabel <$> oneOffs s)
  ∧ Forall (fun op => isPending (generatedImages s !! oneOffLabel op) = true) (oneOffs s) →
  step s ev = Some s' →
  NoDup (oneOffLabel <$> oneOffs s')
  ∧ Forall (fun op => isPending (generatedImages s' !! oneOffLabel op) = true) (oneOffs s').
Proof.
  intros Hev [Hnd Hpend] Hstep.
  assert (∀ h (item : GeneratedImage),
             isPending (generatedImages s !! h) = false →
             isPending (Some item) = true →
             ∀ op, NoDup (oneOffLabel <$> (oneOffs s ++ [op]))
                   ∧ Forall (fun op' => isPending (<[h := item]> (generatedImages s)
                                                    !! oneOffLabel op') = true)
                       (oneOffs s ++ [op])
                   ∨ oneOffLabel op ≠ h) as Hstart.
  { intros h item Hnp Hitem op. destruct (decide (oneOffLabel op = h)) as [Heq|]; [left|by right].
    assert (h ∉ oneOffLabel <$> oneOffs s) as Hfresh.
    { intros (op' & -> & Hin)%list_elem_of_fmap.
      rewrite Forall_forall in Hpend. by rewrite (Hpend _ Hin) in Hnp. }
    split.
    - rewrite fmap_app. apply NoDup_app. split; [done|]. split.
      + intros x Hx [->|[]%elem_of_nil]%elem_of_cons. by rewrite Heq in Hx.
      + apply NoDup_singleton.
    - apply Forall_app. split.
      + rewrite Forall_forall in Hpend |- *. intros op' Hin.
        rewrite lookup_insert_ne; [by apply Hpend|].
        intros Heq'. apply Hfresh. rewrite Heq'. apply list_elem_of_fmap. eauto.
      + apply Forall_singleton. by rewrite Heq, lookup_insert_eq. }
  destruct ev as [result|gender|h|h prompt| |r i outcome|i outcome]; try done;
    simpl in Hstep.
  - injection Hstep as <-. unfold handleRegenerateDecade.
    destruct (uploadedImage s) as [image|], (selectedGender s) as [gender|]; try done.
    destruct (negb (truthy image) || negb (truthy gender)); [done|].
    destruct (isPending (generatedImages s !! h)) eqn:Hp; [done|]. simpl.
    by destruct (Hstart h pendingImage Hp isPending_pendingImage (Regenerating h)).
  - injection Hstep as <-. unfold handleRemixDecade.
    destruct (generatedImages s !! h ≫= url) as [src|]; [|done].
    destruct (negb (truthy src) || negb (truthy prompt)); [done|].
    destruct (isPending (generatedImages s !! h)) eqn:Hp; [done|]. simpl.
    by destruct (Hstart h (markPending (generatedImages s !! h)) Hp
                   (isPending_markPending _) (Remixing h src)).
  - unfold oneOffSettles in Hstep.
    destruct (oneOffs s !! i) as [op|] eqn:Hop; [|done].
    assert (s' = {| uploadedImage := uploadedImage s;
                    generatedImages :=
                      <[oneOffLabel op := oneOffResult op outcome]> (generatedImages s);
                    isLoading := isLoading s; appState := appState s;
                    selectedGender := selectedGender s;
                    runs := runs s; oneOffs := delete i (oneOffs s);
                    calls := calls s |}) as ->.
    { destruct op; by injection Hstep as <-. }
    simpl.
    apply take_drop_middle in Hop.
    assert (delete i (oneOffs s) = take i (oneOffs s) ++ drop (S i) (oneOffs s)) as Hdel
      by apply delete_take_drop.
    rewrite Hdel. rewrite <- Hop in Hnd, Hpend.
    rewrite fmap_app, fmap_cons in Hnd.
    apply NoDup_app in Hnd as (Hnd1 & Hdisj & Hnd2).
    apply NoDup_cons in Hnd2 as [Hfresh2 Hnd2].
    split.
    + rewrite fmap_app. apply NoDup_app. split; [done|]. split; [|done].
      intros x Hx Hx2. apply (Hdisj x Hx). by apply list_elem_of_further.
    + apply Forall_app in Hpend as [Hp1 Hp2]. apply Forall_cons in Hp2 as [_ Hp2].
      apply Forall_app. split.
      * rewrite Forall_forall in Hp1 |- *. intros op' Hin.
        rewrite lookup_insert_ne; [by apply Hp1|].
        intros Heq. apply (Hdisj (oneOffLabel op')).
        -- apply list_elem_of_fmap. eauto.
        -- rewrite <- Heq. apply list_elem_of_here.
      * rewrite Forall_forall in Hp2 |- *. intros op' Hin.
        rewrite lookup_insert_ne; [by apply Hp2|].
        intros Heq. apply Hfresh2. rewrite Heq. apply list_elem_of_fmap. eauto.
Qed.

Lemma handleRegenerateDecadeFrom_latest rendered hairstyle s :
  sameReads rendered s →
  handleRegenerateDecadeFrom rendered hairstyle s = handleRegenerateDecade hairstyle s.
Proof.
  intros (Hup & Hsel & Himgs).
  unfold handleRegenerateDecadeFrom, handleRegenerateDecade. by rewrite Hup, Hsel, Himgs.
Qed.

Lemma handleRemixDecadeFrom_latest rendered hairstyle prompt s :
  sameReads rendered s →
  handleRemixDecadeFrom rendered hairstyle prompt s = handleRemixDecade hairstyle prompt s.
Proof.
  intros (Hup & Hsel & Himgs).
  unfold handleRemixDecadeFrom, handleRemixDecade. by rewrite Himgs.
Qed.

(** X9. Among retries and remixes, the [Pending] guard gives mutual
    exclusion as long as every call reads the items as last written:
    starting with no such operation in flight, after any sequence of such
    retry calls, remix calls and settlements, no two operations in flight
    work on the same label, and the item of every label with an operation
    in flight is [Pending]. Two retries of one label that read the same
    render both pass the guard: two activations on that label are then in
    flight, with two generation calls. *)
Theorem pending_guard_between_renders :
  (∀ s evs s',
     oneOffs s = [] →
     readsLatest s evs →
     execFrom s evs = Some s' →
     NoDup (oneOffLabel <$> oneOffs s')
     ∧ Forall (fun op => isPending (generatedImages s' !! oneOffLabel op) = true)
         (oneOffs s'))
  ∧ (∀ s image gender hairstyle,
       uploadedImage s = Some image → truthy image = true →
       selectedGender s = Some gender → truthy gender = true →
       isPending (generatedImages s !! hairstyle) = false →
       ∃ s',
         execFrom s [RetryFrom s hairstyle; RetryFrom s hairstyle] = Some s'
         ∧ oneOffs s' = oneOffs s ++ [Regenerating hairstyle; Regenerating hairstyle]
         ∧ calls s' = calls s ++ [generateCall image gender hairstyle;
                                  generateCall image gender hairstyle]
         ∧ generatedImages s' = <[hairstyle := pendingImage]> (generatedImages s)).
Proof.
  split.
  - intros s evs s' Hnone.
    assert (NoDup (oneOffLabel <$> oneOffs s)
            ∧ Forall (fun op => isPending (generatedImages s !! oneOffLabel op) = true)
                (oneOffs s)) as Hinv.
    { rewrite Hnone. split; constructor. }
    clear Hnone. revert s Hinv.
    induction evs as [|ev evs IH]; intros s Hinv Hfresh Hex; simpl in *.
    + by injection Hex as <-.
    + destruct Hfresh as [Hread Hfresh].
      destruct (stepFrom s ev) as [s1|] eqn:Hstep; [|done].
      apply (IH s1); [|done|done].
      destruct ev as [rendered h|rendered h prompt|i outcome]; simpl in Hstep.
      * rewrite (handleRegenerateDecadeFrom_latest _ _ _ Hread) in Hstep.
        by apply (step_one_off_exclusion s (Regenerate h) s1).
      * rewrite (handleRemixDecadeFrom_latest _ _ _ _ Hread) in Hstep.
        by apply (step_one_off_exclusion s (Remix h prompt) s1).
      * by apply (step_one_off_exclusion s (OneOffSettles i outcome) s1).
  - intros s image gender hairstyle Hup Himg Hsel Hgen Hpend.
    simpl. unfold handleRegenerateDecadeFrom.
    rewrite Hup, Hsel, Himg, Hgen, Hpend. simpl.
    eexists. split; [reflexivity|]. simpl.
    rewrite <- !app_assoc. by rewrite insert_insert_eq.
Qed.

Lemma pending_guard_between_renders_witness :
  let s := afterEvents [ImageLoaded photo; Generate (js "masculino");
                        WorkerSettles 0 0 (Fulfilled picture1)] in
  (∃ s', execFrom s [RetryFrom s buzz; RetryFrom s buzz] = Some s'
         ∧ oneOffs s' = [Regenerating buzz; Regenerating buzz])
  ∧ NoDup (oneOffLabel <$>
             oneOffs (handleRegenerateDecadeFrom (handleRegenerateDecadeFrom s buzz s) buzz
                        (handleRegenerateDecadeFrom s buzz s))).
Proof.
  intros s. split.
  - destruct (proj2 pending_guard_between_renders s photo (js "masculino") buzz)
      as (s' & Hex & Hops & _); try (vm_compute; reflexivity).
    exists s'. split; [exact Hex|]. rewrite Hops. vm_compute. reflexivity.
  - apply (proj1 pending_guard_between_renders s
             [RetryFrom s buzz; RetryFrom (handleRegenerateDecadeFrom s buzz s) buzz]).
    + vm_compute. reflexivity.
    + simpl. repeat split; reflexivity.
    + reflexivity.
Defined.

(** X10. The guard does not hold against the pool: when a worker of a run
    and a retry or remix await the same label, the settlement of the
    worker makes the item non-[Pending], and a retry of that label then
    starts a second activation next to the one still in flight. *)
Theorem pending_guard_lifted_by_pool :
  ∀ s image gender r run i h j op outcome,
    uploadedImage s = Some image → truthy image = true →
    selectedGender s = Some gender → truthy gender = true →
    runs s !! r = Some run → workers run !! i = Some (Awaiting h) →
    oneOffs s !! j = Some op → oneOffLabel op = h →
    ∃ s',
      exec s [WorkerSettles r i outcome; Regenerate h] = Some s'
      ∧ oneOffs s' = oneOffs s ++ [Regenerating h]
      ∧ generatedImages s' = <[h := pendingImage]> (generatedImages s)
      ∧ ¬ NoDup (oneOffLabel <$> oneOffs s').
Proof.
  intros s image gender r run i h j op outcome Hup Himg Hg Hgt Hrun Hw Hop Hlab.
  simpl. unfold workerSettles. rewrite Hrun, Hw.
  destruct (workerLoop (hairstyleQueue run)) as [w queue'].
  match goal with
  | |- context [afterPromiseAll ?r' ?s1] =>
      destruct (afterPromiseAll_fields r' s1) as (Eup & Eimg & Egen & _ & Eops & _);
      generalize dependent (afterPromiseAll r' s1)
  end.
  intros s1 Eup Eimg Egen Eops. simpl in *.
  unfold handleRegenerateDecade. rewrite Eup, Egen, Hup, Hg, Himg, Hgt, Eimg.
  rewrite lookup_insert_eq.
  assert (isPending (Some (generationResult outcome)) = false) as -> by (by destruct outcome).
  cbn [negb orb].
  eexists. split; [reflexivity|]. simpl. rewrite Eops.
  split; [done|]. split; [by rewrite insert_insert_eq|].
  rewrite fmap_app. intros (_ & Hdisj & _)%NoDup_app.
  apply (Hdisj h).
  - apply list_elem_of_fmap. exists op. split; [done|]. by eapply list_elem_of_lookup_2.
  - apply list_elem_of_here.
Qed.

Lemma pending_guard_lifted_by_pool_witness :
  let s := afterEvents [ImageLoaded photo; Generate (js "masculino");
                        WorkerSettles 0 0 (Fulfilled picture1);
                        WorkerSettles 0 1 (Fulfilled picture1);
                        WorkerSettles 0 0 (Fulfilled picture1);
                        WorkerSettles 0 1 (Fulfilled picture1);
                        WorkerSettles 0 0 (Fulfilled picture1);
                        WorkerSettles 0 1 (Fulfilled picture1);
                        Regenerate buzz; Reset; ImageLoaded photo;
                        Generate (js "masculino")] in
  ∃ s', exec s [WorkerSettles 1 0 (Fulfilled picture2); Regenerate buzz] = Some s'
        ∧ oneOffs s' = [Regenerating buzz; Regenerating buzz].
Proof.
  intros s.
  destruct (pending_guard_lifted_by_pool s photo (js "masculino") 1
              {| runImage := photo; runGender := js "masculino";
                 hairstyleQueue := drop 2 MALE_HAIRSTYLES;
                 workers := [Awaiting buzz; Awaiting undercut] |}
              0 buzz 0 (Regenerating buzz) (Fulfilled picture2))
    as (s' & Hex & Hops & _); try (vm_compute; reflexivity).
  exists s'. split; [exact Hex|]. rewrite Hops. vm_compute. reflexivity.
Defined.

(** ** The items of a run, and the album *)

Section RunItemsProperties.

Variables (hs : list jsstring) (c0 : list ClientCall) (image gender : jsstring).
Variable r : nat.
Hypothesis hs_truthy : forallb truthy hs = true.
Hypothesis hs_NoDup : NoDup hs.

(** A settlement writes the item of the label its worker awaited, a label
    of the run that had not settled before. *)
Lemma RunInv_step_item D s i outcome s' :
  RunInv hs c0 image gender r D s →
  workerSettles r i outcome s = Some s' →
  ∃ h, RunInv hs c0 image gender r (D ++ [h]) s'
       ∧ (h ∈ hs) ∧ (h ∉ D)
       ∧ generatedImages s' = <[h := generationResult outcome]> (generatedImages s)
       ∧ selectedGender s' = selectedGender s.
Proof.
  intros (run & pre & Hrun & Himg & Hgen & Hhs & Hperm & Hcalls & HD & Hfin & Hlen & Hset).
  unfold workerSettles. rewrite Hrun.
  destruct (workers run !! i) as [[h|]|] eqn:Hi; try done.
  assert (forallb truthy (hairstyleQueue run) = true) as Hq.
  { rewrite Hhs, forallb_app in hs_truthy. by apply andb_true_iff in hs_truthy as [_ ?]. }
  rewrite (workerLoop_truthy _ Hq).
  assert (NoDup (D ++ awaited (workers run))) as Hnd.
  { rewrite <- Hperm. rewrite Hhs in hs_NoDup. by apply NoDup_app in hs_NoDup as [? _]. }
  assert (h ∈ awaited (workers run)) as Hh by (by eapply awaited_lookup).
  assert (i < length (workers run))%nat as Hilt by (by eapply lookup_lt_Some).
  assert (r < length (runs s))%nat as Hrlt by (by eapply lookup_lt_Some).
  set (w := match hairstyleQueue run with [] => Finished | h2 :: _ => Awaiting h2 end).
  set (queue' := match hairstyleQueue run with [] => [] | _ :: q => q end).
  assert ((match hairstyleQueue run with
           | [] => (Finished, [])
           | h2 :: q => (Awaiting h2, q)
           end) = (w, queue')) as -> by (subst w queue'; by destruct (hairstyleQueue run)).
  intros [= <-]. exists h.
  match goal with
  | |- context [afterPromiseAll ?r' ?s1] =>
      destruct (afterPromiseAll_fields r' s1) as (_ & Eimg & Esel & Eruns & _ & Ecalls);
      pose proof (afterPromiseAll_settled r' s1) as Eset;
      generalize dependent (afterPromiseAll r' s1);
      set (run' := r')
  end.
  intros s2 Eimg Esel Eruns Ecalls Eset. simpl in Eimg, Esel, Eruns, Ecalls.
  assert (h ∉ D) as HhD.
  { intros HinD. apply NoDup_app in Hnd as (_ & Hdisj & _). by apply (Hdisj h). }
  split; [|split; [|split; [done|split; [done|done]]]].
  - exists run', (pre ++ awaited [w]).
    rewrite Eruns, Eimg, Ecalls. subst run'. cbn [runImage runGender hairstyleQueue workers].
    split; [by apply list_lookup_insert_eq|].
    split; [done|]. split; [done|].
    split.
    { rewrite Hhs, <- app_assoc. f_equal. subst w queue'.
      by destruct (hairstyleQueue run). }
    split.
    { rewrite Hperm, <- !app_assoc. apply Permutation_app_head.
      symmetry. apply (awaited_insert _ _ _ _ Hi). }
    split.
    { rewrite Hcalls, Himg, Hgen, map_app. by rewrite <- app_assoc. }
    split.
    { intros h' [Hh'| ->%list_elem_of_singleton]%elem_of_app.
      - destruct (HD h' Hh') as [o Ho]. exists o.
        rewrite lookup_insert_ne; [done|]. by intros ->.
      - exists outcome. by rewrite lookup_insert_eq. }
    split.
    { intros j Hj. subst w queue'.
      destruct (hairstyleQueue run) as [|h2 q] eqn:Eq; [done|].
      destruct (decide (i = j)) as [->|Hne].
      - by rewrite list_lookup_insert_eq in Hj.
      - rewrite list_lookup_insert_ne in Hj by done. by apply Hfin in Hj. }
    split; [by rewrite length_insert|].
    exact Eset.
  - rewrite Hhs. apply elem_of_app. left. rewrite Hperm. apply elem_of_app. by right.
Qed.

Lemma RunItems_exec sched : ∀ written s s',
  RunInv hs c0 image gender r (written.*1) s →
  RunItems hs gender written s →
  exec s (runEvents r sched) = Some s' →
  ∃ written', RunInv hs c0 image gender r (written'.*1) s'
              ∧ RunItems hs gender written' s'
              ∧ written'.*2 = written.*2 ++ sched.*2.
Proof.
  induction sched as [|[i o] sched IH]; intros written s s' Hinv Hitems Hex; simpl in Hex.
  - injection Hex as <-. exists written. by rewrite app_nil_r.
  - destruct (workerSettles r i o s) as [s1|] eqn:Hstep; [|done].
    destruct (RunInv_step_item _ _ _ _ _ Hinv Hstep) as (h & Hinv1 & Hh & HhD & Eimg & Esel).
    destruct Hitems as (Hw & Hp & Hdom & Hsel).
    destruct (IH (written ++ [(h, o)]) s1 s') as (written' & Hinv' & Hitems' & Hout);
      [by rewrite fmap_app| |done|].
    + split; [|split; [|split]].
      * intros h1 o1 [Hin|[= -> ->]%list_elem_of_singleton]%elem_of_app; rewrite Eimg.
        -- rewrite lookup_insert_ne; [by apply Hw|].
           intros <-. apply HhD. apply list_elem_of_fmap. by exists (h, o1).
        -- by rewrite lookup_insert_eq.
      * intros h1 Hh1 Hn1. rewrite fmap_app in Hn1.
        apply not_elem_of_app in Hn1 as [Hn1 Hn2]. rewrite Eimg.
        rewrite lookup_insert_ne; [by apply Hp|].
        intros <-. apply Hn2. apply list_elem_of_here.
      * intros h1. rewrite Eimg. destruct (decide (h = h1)) as [<-|Hne]; [done|].
        rewrite lookup_insert_ne by done. apply Hdom.
      * by rewrite Esel.
    + exists written'. split; [done|]. split; [done|].
      rewrite Hout, fmap_app. simpl. by rewrite <- app_assoc.
Qed.

End RunItemsProperties.

Lemma RunItems_start s0 image gender :
  uploadedImage s0 = Some image → truthy image = true →
  RunItems (hairstylesFor gender) gender [] (handleGenerate gender s0).
Proof.
  intros Hup Himg. rewrite (handleGenerate_started _ _ _ Hup Himg).
  match goal with
  | |- context [afterPromiseAll ?r' ?s1] =>
      destruct (afterPromiseAll_fields r' s1) as (_ & Eimg & Esel & _);
      generalize dependent (afterPromiseAll r' s1)
  end.
  intros s1 Eimg Esel. simpl in Eimg, Esel.
  assert (∀ h, generatedImages s1 !! h
               = if bool_decide (h ∈ hairstylesFor gender) then Some pendingImage else None)
    as Hlook.
  { intros h. by rewrite Eimg, initialImages_lookup, lookup_empty. }
  split; [|split; [|split]].
  - intros h o []%elem_of_nil.
  - intros h Hh _. rewrite Hlook. by rewrite bool_decide_eq_true_2.
  - intros h [it Hit]. rewrite Hlook in Hit.
    destruct (decide (h ∈ hairstylesFor gender)); [done|].
    by rewrite bool_decide_eq_false_2 in Hit.
  - done.
Qed.

(** The settled labels of a run and the outcomes they settled with, after
    a schedule of settlements of its workers. *)
Lemma run_written s0 image gender sched s' :
  uploadedImage s0 = Some image → truthy image = true →
  exec (handleGenerate gender s0) (runEvents (length (runs s0)) sched) = Some s' →
  ∃ written,
    written.*2 = sched.*2
    ∧ NoDup (written.*1)
    ∧ (∀ h, h ∈ written.*1 → h ∈ hairstylesFor gender)
    ∧ (length sched = length (hairstylesFor gender) →
       ∀ h, h ∈ hairstylesFor gender → h ∈ written.*1)
    ∧ RunItems (hairstylesFor gender) gender written s'.
Proof.
  intros Hup Himg Hex.
  destruct (RunItems_exec (hairstylesFor gender) (calls s0) image gender (length (runs s0))
              (hairstylesFor_truthy gender) (hairstylesFor_NoDup gender)
              sched [] _ _ (RunInv_start _ _ gender Hup Himg)
              (RunItems_start _ _ gender Hup Himg) Hex)
    as (written & Hinv & Hitems & Hout).
  exists written. split; [done|].
  destruct Hinv as (run & pre & _ & _ & _ & Hhs & Hperm & _).
  pose proof (hairstylesFor_NoDup gender) as Hnd. rewrite Hhs in Hnd.
  apply NoDup_app in Hnd as (Hndpre & _ & _).
  assert (length (written.*1) = length sched) as Hlen.
  { transitivity (length (written.*2)); [by rewrite !length_fmap|].
    by rewrite Hout, length_app, !length_fmap. }
  split; [rewrite Hperm in Hndpre; by apply NoDup_app in Hndpre as [? _]|].
  split.
  { intros h Hh. rewrite Hhs. apply elem_of_app. left. rewrite Hperm.
    apply elem_of_app. by left. }
  split; [|done].
  intros Hfull h Hh.
  assert (length pre = (length (written.*1) + length (awaited (workers run)))%nat) as Hlp
    by (by rewrite Hperm, length_app).
  assert (length (hairstylesFor gender)
          = (length pre + length (hairstyleQueue run))%nat) as Hlh
    by (by rewrite Hhs at 1; rewrite length_app).
  assert (awaited (workers run) = []) as Haw by (apply nil_length_inv; lia).
  assert (hairstyleQueue run = []) as Hq by (apply nil_length_inv; lia).
  rewrite Haw, app_nil_r in Hperm. rewrite Hhs, Hq, app_nil_r in Hh.
  by rewrite <- Hperm.
Qed.

(** X11. Along a run taken alone, each settlement writes the item of one
    label of the category, a label not settled before, with the outcome of
    that settlement: [Done] with the image or [Error] with the message.
    The labels not yet settled are still fresh [Pending] items, and the
    items hold no other label. *)
Theorem run_items_follow_outcomes :
  ∀ s0 image gender sched s',
    uploadedImage s0 = Some image → truthy image = true →
    exec (handleGenerate gender s0) (runEvents (length (runs s0)) sched) = Some s' →
    ∃ labels,
      NoDup labels
      ∧ Forall (fun h => h ∈ hairstylesFor gender) labels
      ∧ Forall2 (fun h outcome =>
                   generatedImages s' !! h
                   = Some match outcome with
                          | Fulfilled resultUrl =>
                              {| status := Done; url := Some resultUrl; error := None |}
                          | Rejected err =>
                              {| status := Error; url := None;
                                 error := Some (itemErrorMessage err) |}
                          end)
          labels (sched.*2)
      ∧ Forall (fun h => h ∈ labels ∨ generatedImages s' !! h = Some pendingImage)
          (hairstylesFor gender)
      ∧ map_Forall (fun h _ => h ∈ hairstylesFor gender) (generatedImages s').
Proof.
  intros s0 image gender sched s' Hup Himg Hex.
  destruct (run_written _ _ _ _ _ Hup Himg Hex)
    as (written & Hout & Hnd & Hsub & _ & Hw & Hp & Hdom & _).
  exists (written.*1). split; [done|]. split; [by apply Forall_forall|].
  split.
  { rewrite <- Hout. clear Hout Hnd Hsub Hp.
    induction written as [|[h o] written IH]; simpl; constructor.
    - rewrite (Hw h o); [by destruct o|apply list_elem_of_here].
    - apply IH. intros h1 o1 Hin. apply Hw. by apply list_elem_of_further. }
  split.
  { apply Forall_forall. intros h Hh. destruct (decide (h ∈ written.*1)).
    - by left.
    - right. by apply Hp. }
  intros h it Hit. apply Hdom. by exists it.
Qed.

Lemma run_items_follow_outcomes_witness :
  let s := handleGenerate (js "masculino") (imageLoaded photo initialApp) in
  ∃ s', exec s (runEvents 0 [(1, Rejected internalFault); (0, Fulfilled picture1)]%nat)
        = Some s'
        ∧ ∃ labels, NoDup labels ∧ length labels = 2%nat
                    ∧ Forall (fun h => h ∈ MALE_HAIRSTYLES) labels.
Proof.
  intros s.
  destruct (exec s (runEvents 0 [(1, Rejected internalFault); (0, Fulfilled picture1)]%nat))
    as [s'|] eqn:Hex; [|vm_compute in Hex; discriminate Hex].
  exists s'. split; [reflexivity|].
  destruct (run_items_follow_outcomes (imageLoaded photo initialApp) photo (js "masculino")
              [(1, Rejected internalFault); (0, Fulfilled picture1)]%nat s'
              eq_refl eq_refl Hex) as (labels & Hnd & Hsub & Hall & _).
  exists labels. split; [exact Hnd|]. split; [|exact Hsub].
  apply Forall2_length in Hall. exact Hall.
Defined.

Lemma albumEntry_generationResult outcome :
  albumEntry (generationResult outcome)
  = match outcome with
    | Fulfilled resultUrl => if truthy resultUrl then Some resultUrl else None
    | Rejected _ => None
    end.
Proof. by destruct outcome. Qed.

(** X12. After a run taken alone has settled, the album is requested
    exactly when every generation of the run yielded an image: it then
    holds the image of each label of the category and nothing else. If a
    single generation failed, the download is refused with the alert. *)
Theorem album_after_run :
  ∀ s0 image gender sched s',
    uploadedImage s0 = Some image → truthy image = true →
    exec (handleGenerate gender s0) (runEvents (length (runs s0)) sched) = Some s' →
    length sched = length (hairstylesFor gender) →
    if forallb usable (sched.*2)
    then handleDownloadAlbum s' = AlbumCreate (albumData s')
         ∧ dom (albumData s') = list_to_set (hairstylesFor gender)
         ∧ map_Forall (fun h imageUrl => generatedImages s' !! h = Some (doneImage imageUrl))
             (albumData s')
    else handleDownloadAlbum s' = AlbumAlert.
Proof.
  intros s0 image gender sched s' Hup Himg Hex Hfull.
  destruct (run_written _ _ _ _ _ Hup Himg Hex)
    as (written & Hout & Hnd & Hsub & Hall & Hw & Hp & Hdom & Hsel).
  specialize (Hall Hfull).
  assert (dom (generatedImages s') = list_to_set (hairstylesFor gender)) as Hd.
  { apply set_eq. intros h. rewrite elem_of_dom, elem_of_list_to_set. split; [apply Hdom|].
    intros Hh. apply Hall, list_elem_of_fmap in Hh as ([h' o] & Heq' & Hin).
    simpl in Heq'. subst h.
    rewrite (Hw _ _ Hin). eauto. }
  assert (size (generatedImages s') = length (hairstylesFor gender)) as Hsize.
  { rewrite <- size_dom, Hd. apply size_list_to_set, hairstylesFor_NoDup. }
  assert (dom (albumData s') ⊆ dom (generatedImages s')) as Hsubdom.
  { intros h. rewrite !elem_of_dom. unfold albumData. rewrite lookup_omap.
    destruct (generatedImages s' !! h); [eauto|]. by intros [? ?]. }
  unfold handleDownloadAlbum. rewrite Hsel. cbv zeta.
  destruct (forallb usable (sched.*2)) eqn:Hus.
  - rewrite <- Hout in Hus. rewrite forallb_forall in Hus.
    assert (dom (albumData s') = dom (generatedImages s')) as Heq.
    { apply set_eq. intros h. split; [apply Hsubdom|].
      rewrite Hd, elem_of_list_to_set. intros Hh.
      apply Hall, list_elem_of_fmap in Hh as ([h' o] & Heq' & Hin).
    simpl in Heq'. subst h.
      apply elem_of_dom. unfold albumData. rewrite lookup_omap, (Hw _ _ Hin). simpl.
      rewrite albumEntry_generationResult.
      assert (usable o = true) as Ho.
      { apply Hus, list_elem_of_In, list_elem_of_fmap. by exists (h', o). }
      destruct o as [u|e]; [|done]. simpl in Ho. rewrite Ho. eauto. }
    assert (size (albumData s') = length (hairstylesFor gender)) as Hsz
      by (by rewrite <- size_dom, Heq, size_dom).
    rewrite Hsz, Nat.ltb_irrefl.
    split; [done|]. split; [by rewrite Heq|].
    intros h u Hu. unfold albumData in Hu. rewrite lookup_omap in Hu.
    destruct (generatedImages s' !! h) as [it|] eqn:Hit; [|done]. simpl in Hu.
    assert (h ∈ hairstylesFor gender) as Hh by (apply Hdom; eauto).
    apply Hall, list_elem_of_fmap in Hh as ([h' o] & Heq' & Hin). simpl in Heq'. subst h'.
    rewrite (Hw _ _ Hin) in Hit. injection Hit as <-.
    rewrite albumEntry_generationResult in Hu.
    destruct o as [u'|e]; [|done]. destruct (truthy u'); [|done]. by injection Hu as ->.
  - assert (∃ h o, (h, o) ∈ written ∧ usable o = false) as (h & o & Hin & Ho).
    { rewrite <- Hout in Hus. clear -Hus.
      induction written as [|[h o] written IH]; simpl in Hus; [done|].
      destruct (usable o) eqn:Ho.
      - destruct (IH Hus) as (h1 & o1 & Hin & Ho1). exists h1, o1.
        split; [by apply list_elem_of_further|done].
      - exists h, o. split; [apply list_elem_of_here|done]. }
    assert (size (albumData s') < size (generatedImages s'))%nat as Hlt.
    { rewrite <- !size_dom. apply subset_size. split; [exact Hsubdom|].
      intros Hsup. assert (h ∈ dom (albumData s')) as Hh.
      { apply Hsup, elem_of_dom. rewrite (Hw _ _ Hin). eauto. }
      apply elem_of_dom in Hh as [u Hu]. unfold albumData in Hu.
      rewrite lookup_omap, (Hw _ _ Hin) in Hu. simpl in Hu.
      rewrite albumEntry_generationResult in Hu.
      destruct o as [u'|e]; [|done]. simpl in Ho. by rewrite Ho in Hu. }
    rewrite Hsize in Hlt. apply Nat.ltb_lt in Hlt. by rewrite Hlt.
Qed.

Lemma album_after_run_witness :
  let s := handleGenerate (js "feminino") (imageLoaded photo initialApp) in
  let sched := [(0, Fulfilled picture1); (1, Fulfilled picture2);
                (1, Fulfilled picture2); (0, Fulfilled picture1);
                (1, Rejected internalFault); (0, Fulfilled picture2)]%nat in
  ∃ s', exec s (runEvents 0 sched) = Some s' ∧ handleDownloadAlbum s' = AlbumAlert.
Proof.
  intros s sched.
  destruct (exec s (runEvents 0 sched)) as [s'|] eqn:Hex;
    [|vm_compute in Hex; discriminate Hex].
  exists s'. split; [reflexivity|].
  exact (album_after_run (imageLoaded photo initialApp) photo (js "feminino") sched s'
           eq_refl eq_refl Hex eq_refl).
Defined.

(** ** Download of one image *)

Lemma replaceFirst_split c r s :
  ((c ∉ s) ∧ replaceFirst c r s = s)
  ∨ ∃ a b, s = a ++ c :: b ∧ (c ∉ a) ∧ replaceFirst c r s = a ++ r ++ b.
Proof.
  induction s as [|x s IH]; simpl.
  - left. split; [apply not_elem_of_nil|done].
  - destruct (N.eqb_spec x c) as [->|Hne].
    + right. exists [], s. split; [done|]. split; [apply not_elem_of_nil|done].
    + destruct IH as [[Hnin ->]|(a & b & -> & Hnin & ->)].
      * left. split; [|done]. intros [?|?]%elem_of_cons; congruence.
      * right. exists (x :: a), b. split; [done|]. split; [|done].
        intros [?|?]%elem_of_cons; congruence.
Qed.

(** X13. The download of one image is offered exactly for the items that
    enter the album, the [Done] items with a non-empty image, and its link
    points to that image. The file name is the label between a fixed
    prefix and [.jpg], with the first space of the label, and only the
    first, turned into a hyphen. *)
Theorem download_file_name :
  ∀ s hairstyle,
    match handleDownloadIndividualImage hairstyle s with
    | Some (href, name) =>
        albumData s !! hairstyle = Some href
        ∧ (∃ it, generatedImages s !! hairstyle = Some it
                 ∧ status it = Done ∧ url it = Some href)
        ∧ (((32 ∉ hairstyle)
            ∧ name = js "estudio-de-estilos-" ++ hairstyle ++ js ".jpg")
           ∨ ∃ a b, hairstyle = a ++ 32 :: b ∧ (32 ∉ a)
                    ∧ name = js "estudio-de-estilos-" ++ a ++ 45 :: b ++ js ".jpg")
    | None => albumData s !! hairstyle = None
    end.
Proof.
  intros s hairstyle. unfold handleDownloadIndividualImage, albumData.
  rewrite lookup_omap.
  destruct (generatedImages s !! hairstyle) as [[[] [u|] e]|] eqn:Hit; try done.
  unfold albumEntry. cbn [mbind option_bind status url].
  destruct (truthy u); [|done].
  split; [done|]. split; [by eexists|].
  destruct (replaceFirst_split 32 (js "-") hairstyle) as [[Hnin ->]|(a & b & -> & Hnin & ->)].
  - by left.
  - right. exists a, b. split; [done|]. split; [done|].
    by rewrite <- !app_assoc.
Qed.

Example download_file_name_buzz :
  handleDownloadIndividualImage buzz
    (afterEvents [ImageLoaded photo; Generate (js "masculino");
                  WorkerSettles 0 0 (Fulfilled picture1)])
  = Some (picture1, js "estudio-de-estilos-Corte-Buzz (com Degradê).jpg").
Proof. by vm_compute. Qed.

(** ** The remix form *)






(** ** After a reset *)

(** X15. After a reset, and after the upload of a photo, no item
    operation does anything, whatever the label: a retry returns because
    no category is selected, a remix because there is no item, a download
    is not offered and the album is refused. *)
Theorem item_operations_after_reset :
  ∀ s result hairstyle prompt,
    (handleRegenerateDecade hairstyle (handleReset s) = handleReset s
     ∧ handleRemixDecade hairstyle prompt (handleReset s) = handleReset s
     ∧ handleDownloadIndividualImage hairstyle (handleReset s) = None
     ∧ handleDownloadAlbum (handleReset s) = AlbumAlert)
    ∧ (handleRegenerateDecade hairstyle (imageLoaded result s) = imageLoaded result s
       ∧ handleRemixDecade hairstyle prompt (imageLoaded result s) = imageLoaded result s
       ∧ handleDownloadIndividualImage hairstyle (imageLoaded result s) = None
       ∧ handleDownloadAlbum (imageLoaded result s) = AlbumAlert).
Proof.
  intros s result hairstyle prompt.
  assert (albumData (handleReset s) = ∅ ∧ albumData (imageLoaded result s) = ∅) as [E1 E2].
  { unfold albumData. simpl. by rewrite omap_empty. }
  split.
  - unfold handleRegenerateDecade, handleRemixDecade, handleDownloadIndividualImage,
      handleDownloadAlbum. rewrite E1. simpl. by rewrite lookup_empty.
  - unfold handleRegenerateDecade, handleRemixDecade, handleDownloadIndividualImage,
      handleDownloadAlbum. rewrite E2. simpl. by rewrite lookup_empty.
Qed.

(** ** The guard of the album *)

(** X16. The album guard counts the finished items; it does not look at
    their labels. A retry of a label of the first category that settles
    after a reset and the start of a run of the other category leaves its
    item among those of the new run. If one generation of the new run then
    fails, the five successes and the stray item pass the guard: the album
    is requested although a label of the selected category is in [Error],
    and with an image of the other category in it. *)
Theorem album_guard_counts_items :
  ∃ evs s h,
    exec initialApp evs = Some s
    ∧ selectedGender s = Some (js "feminino")
    ∧ h ∈ FEMALE_HAIRSTYLES
    ∧ status <$> generatedImages s !! h = Some Error
    ∧ handleDownloadAlbum s = AlbumCreate (albumData s)
    ∧ albumData s !! h = None
    ∧ buzz ∈ MALE_HAIRSTYLES
    ∧ albumData s !! buzz = Some picture2.
Proof.
  exists [ImageLoaded photo; Generate (js "masculino");
          WorkerSettles 0 0 (Fulfilled picture1); WorkerSettles 0 1 (Fulfilled picture1);
          WorkerSettles 0 0 (Fulfilled picture1); WorkerSettles 0 1 (Fulfilled picture1);
          WorkerSettles 0 0 (Fulfilled picture1); WorkerSettles 0 1 (Fulfilled picture1);
          Regenerate buzz; Reset; ImageLoaded photo; Generate (js "feminino");
          OneOffSettles 0 (Fulfilled picture2);
          WorkerSettles 1 0 (Rejected internalFault); WorkerSettles 1 1 (Fulfilled picture1);
          WorkerSettles 1 0 (Fulfilled picture1); WorkerSettles 1 1 (Fulfilled picture1);
          WorkerSettles 1 0 (Fulfilled picture1); WorkerSettles 1 1 (Fulfilled picture1)].
  eexists. exists (js "Pixie Assimétrico").
  split; [vm_compute; reflexivity|].
  split; [reflexivity|].
  split; [apply list_elem_of_here|].
  split; [by vm_compute|].
  split; [by vm_compute|].
  split; [by vm_compute|].
  split; [apply list_elem_of_here|].
  by vm_compute.
Qed.

(** * A run among other operations *)

Lemma handleGenerate_calls gender s : ∃ cs, calls (handleGenerate gender s) = calls s ++ cs.
Proof.
  unfold handleGenerate.
  destruct (uploadedImage s) as [image|]; [|exists []; by rewrite app_nil_r].
  destruct (negb (truthy image)); [exists []; by rewrite app_nil_r|].
  destruct (startWorkers concurrencyLimit (hairstylesFor gender)) as [ws queue].
  match goal with
  | |- context [afterPromiseAll ?r' ?s1] =>
      destruct (afterPromiseAll_fields r' s1) as (_ & _ & _ & _ & _ & ->)
  end.
  simpl. eauto.
Qed.

(** An event other than a settlement of run [r] leaves the run as it is
    and only adds to the log of calls. *)
Lemma step_other_run r s ev s' run :
  isOwnSettlement r ev = false →
  step s ev = Some s' →
  runs s !! r = Some run →
  runs s' !! r = Some run ∧ ∃ cs, calls s' = calls s ++ cs.
Proof.
  intros Hown Hstep Hrun.
  destruct ev as [result|gender|h|h prompt| |r' i outcome|i outcome]; simpl in Hstep.
  - injection Hstep as <-. split; [done|]. exists []. simpl. by rewrite app_nil_r.
  - injection Hstep as <-. split; [by apply handleGenerate_keeps_runs|].
    apply handleGenerate_calls.
  - injection Hstep as <-. split; [by rewrite handleRegenerateDecade_runs|].
    unfold handleRegenerateDecade.
    destruct (uploadedImage s) as [image|], (selectedGender s) as [gender|];
      try (exists []; by rewrite app_nil_r).
    destruct (negb (truthy image) || negb (truthy gender));
      [exists []; by rewrite app_nil_r|].
    destruct (isPending _); [exists []; by rewrite app_nil_r|]. simpl. eauto.
  - injection Hstep as <-. split; [by rewrite handleRemixDecade_runs|].
    unfold handleRemixDecade.
    destruct (generatedImages s !! h ≫= url) as [src|]; [|exists []; by rewrite app_nil_r].
    destruct (negb (truthy src) || negb (truthy prompt));
      [exists []; by rewrite app_nil_r|].
    destruct (isPending _); [exists []; by rewrite app_nil_r|]. simpl. eauto.
  - injection Hstep as <-. split; [done|]. exists []. simpl. by rewrite app_nil_r.
  - simpl in Hown. apply bool_decide_eq_false in Hown.
    unfold workerSettles in Hstep.
    destruct (runs s !! r') as [run1|] eqn:Hrun1; [|done].
    destruct (workers run1 !! i) as [[h|]|]; try done.
    destruct (workerLoop (hairstyleQueue run1)) as [w queue'].
    injection Hstep as <-.
    match goal with
    | |- context [afterPromiseAll ?r1 ?s1] =>
        destruct (afterPromiseAll_fields r1 s1) as (_ & _ & _ & -> & _ & ->)
    end.
    simpl. split; [by rewrite list_lookup_insert_ne|eauto].
  - unfold oneOffSettles in Hstep.
    destruct (oneOffs s !! i) as [[h|h src]|]; [| |done]; injection Hstep as <-;
      (split; [done|]); exists []; simpl; by rewrite app_nil_r.
Qed.

(** A settlement writes a [Done] or [Error] item, removes none, ends at
    most the activation it belongs to, and either leaves the state of the
    application or marks the results as shown. *)
Lemma step_settlement_items s ev s' :
  isSettlement ev = true →
  step s ev = Some s' →
  (∃ h item, generatedImages s' = <[h := item]> (generatedImages s)
             ∧ (status item = Done ∨ status item = Error)
             ∧ (oneOffs s' = oneOffs s
                ∨ ∃ i op, oneOffs s !! i = Some op ∧ oneOffLabel op = h
                          ∧ oneOffs s' = delete i (oneOffs s)))
  ∧ ((appState s' = appState s ∧ isLoading s' = isLoading s)
     ∨ (appState s' = results_shown ∧ isLoading s' = false)).
Proof.
  intros Hev Hstep.
  destruct ev as [result|gender|h|h prompt| |r' i outcome|i outcome]; try done;
    simpl in Hstep.
  - unfold workerSettles in Hstep.
    destruct (runs s !! r') as [run1|] eqn:Hrun1; [|done].
    destruct (workers run1 !! i) as [[h|]|]; try done.
    destruct (workerLoop (hairstyleQueue run1)) as [w queue'].
    injection Hstep as <-. unfold afterPromiseAll.
    match goal with |- context [settled ?r1] => destruct (settled r1) end; simpl;
      (split; [exists h, (generationResult outcome);
               split; [done|split; [by destruct outcome; auto|by left]]|]);
      auto.
  - unfold oneOffSettles in Hstep.
    destruct (oneOffs s !! i) as [[h|h src]|] eqn:Hop; [| |done];
      injection Hstep as <-; simpl.
    + split; [|by left]. exists h, (generationResult outcome).
      split; [done|]. split; [destruct outcome; auto|].
      right. by exists i, (Regenerating h).
    + split; [|by left]. exists h, (remixResult src outcome).
      split; [done|]. split; [destruct outcome; auto|].
      right. by exists i, (Remixing h src).
Qed.

(** A call of the retry or of the remix handler for [h] does nothing, or
    marks the item of [h] as [Pending] and starts one activation on it,
    leaving the other items, the runs and the state of the application. *)
Lemma step_retried s ev s' h :
  retried ev = Some h →
  step s ev = Some s' →
  s' = s
  ∨ (isPending (generatedImages s' !! h) = true
     ∧ (∀ h', h' ≠ h → generatedImages s' !! h' = generatedImages s !! h')
     ∧ (∃ op, oneOffLabel op = h ∧ oneOffs s' = oneOffs s ++ [op])
     ∧ runs s' = runs s ∧ appState s' = appState s ∧ isLoading s' = isLoading s).
Proof.
  intros Hev Hstep.
  destruct ev as [result|gender|h0|h0 prompt| |r' i outcome|i outcome]; try done;
    simpl in Hev; injection Hev as ->; simpl in Hstep; injection Hstep as <-.
  - unfold handleRegenerateDecade.
    destruct (uploadedImage s) as [image1|], (selectedGender s) as [gender1|];
      try (by left).
    destruct (negb (truthy image1) || negb (truthy gender1)); [by left|].
    destruct (isPending (generatedImages s !! h)); [by left|].
    right. cbn [generatedImages oneOffs runs appState isLoading].
    split; [by rewrite lookup_insert_eq|].
    split; [intros h' Hne; by rewrite lookup_insert_ne|].
    split; [by exists (Regenerating h)|done].
  - unfold handleRemixDecade.
    destruct (generatedImages s !! h ≫= url) as [src|]; [|by left].
    destruct (negb (truthy src) || negb (truthy prompt)); [by left|].
    destruct (isPending (generatedImages s !! h)); [by left|].
    right. cbn [generatedImages oneOffs runs appState isLoading].
    split; [rewrite lookup_insert_eq; apply isPending_markPending|].
    split; [intros h' Hne; by rewrite lookup_insert_ne|].
    split; [by exists (Remixing h src)|done].
Qed.

Lemma finished_insert (m : gmap (list N) GeneratedImage) h item h' :
  (status item = Done ∨ status item = Error) →
  finished (m !! h') → finished (<[h := item]> m !! h').
Proof.
  intros Hitem Hf. destruct (decide (h = h')) as [->|Hne].
  - rewrite lookup_insert_eq. by exists item.
  - by rewrite lookup_insert_ne.
Qed.

Section RunAmongOthers.

Variables (hs : list jsstring) (c0 : list ClientCall) (image gender : jsstring).
Variable r : nat.
Hypothesis hs_truthy : forallb truthy hs = true.

Lemma RunCore_other n s ev s' :
  RunCore hs c0 image gender r n s →
  isOwnSettlement r ev = false →
  step s ev = Some s' →
  RunCore hs c0 image gender r n s'.
Proof.
  intros (run & pre & issued & Hrun & Himg & Hgen & Hhs & Hlen & Hcalls & Hsub & Hfin & Hws)
    Hown Hstep.
  destruct (step_other_run r s ev s' run Hown Hstep Hrun) as [Hrun' [cs Hcs]].
  exists run, pre, (issued ++ cs). repeat split; try done.
  - by rewrite Hcs, Hcalls, app_assoc.
  - by apply sublist_inserts_r.
Qed.

(** A settlement of a worker of the run: the worker takes the next
    label, if any, and issues its call. *)
Lemma run_own_settlement n s i outcome s' :
  RunCore hs c0 image gender r n s →
  workerSettles r i outcome s = Some s' →
  ∃ run h w queue' run',
    runs s !! r = Some run ∧ workers run !! i = Some (Awaiting h)
    ∧ (w, queue') = match hairstyleQueue run with
                    | [] => (Finished, [])
                    | h2 :: q => (Awaiting h2, q)
                    end
    ∧ run' = {| runImage := runImage run; runGender := runGender run;
                hairstyleQueue := queue'; workers := <[i := w]> (workers run) |}
    ∧ runs s' !! r = Some run'
    ∧ generatedImages s' = <[h := generationResult outcome]> (generatedImages s)
    ∧ oneOffs s' = oneOffs s
    ∧ calls s' = calls s ++ map (generateCall image gender) (awaited [w])
    ∧ (settled run' = true → appState s' = results_shown ∧ isLoading s' = false)
    ∧ (settled run' = false → appState s' = appState s ∧ isLoading s' = isLoading s).
Proof.
  intros (run & pre & issued & Hrun & Himg & Hgen & Hhs & Hlen & Hcalls & Hsub & Hfin & Hws).
  unfold workerSettles. rewrite Hrun.
  destruct (workers run !! i) as [[h|]|] eqn:Hi; try done.
  assert (forallb truthy (hairstyleQueue run) = true) as Hq.
  { rewrite Hhs, forallb_app in hs_truthy. by apply andb_true_iff in hs_truthy as [_ ?]. }
  rewrite (workerLoop_truthy _ Hq).
  destruct (match hairstyleQueue run with
            | [] => (Finished, [])
            | h2 :: q => (Awaiting h2, q)
            end) as [w queue'] eqn:Hw.
  intros [= <-].
  exists run, h, w, queue'. eexists.
  split; [done|]. split; [done|]. split; [done|]. split; [reflexivity|].
  match goal with
  | |- context [afterPromiseAll ?r' ?s1] =>
      destruct (afterPromiseAll_fields r' s1) as (_ & -> & _ & -> & -> & ->);
      pose proof (afterPromiseAll_settled r' s1) as Eset;
      assert (settled r' = false →
              appState (afterPromiseAll r' s1) = appState s1
              ∧ isLoading (afterPromiseAll r' s1) = isLoading s1) as Eunset
        by (unfold afterPromiseAll; by intros ->)
  end.
  simpl.
  split; [apply list_lookup_insert_eq; by eapply lookup_lt_Some|].
  split; [done|]. split; [done|]. split; [by rewrite Himg, Hgen|].
  split; [exact Eset|exact Eunset].
Qed.

Lemma RunCore_own n s i outcome s' :
  RunCore hs c0 image gender r n s →
  workerSettles r i outcome s = Some s' →
  RunCore hs c0 image gender r (S n) s'.
Proof.
  intros Hcore Hstep.
  destruct (run_own_settlement _ _ _ _ _ Hcore Hstep)
    as (run & h & w & queue' & run' & Hrun & Hi & Hw & -> & Hrun' & _ & _ & Hcalls' & _).
  destruct Hcore as (run0 & pre & issued & Hrun0 & Himg & Hgen & Hhs & Hlen & Hcalls
                     & Hsub & Hfin & Hws).
  rewrite Hrun in Hrun0. injection Hrun0 as <-.
  exists {| runImage := runImage run; runGender := runGender run;
            hairstyleQueue := queue'; workers := <[i := w]> (workers run) |},
    (pre ++ awaited [w]), (issued ++ map (generateCall image gender) (awaited [w])).
  cbn [runImage runGender hairstyleQueue workers].
  split; [done|]. split; [done|]. split; [done|].
  split.
  { rewrite Hhs, <- app_assoc. f_equal.
    destruct (hairstyleQueue run); by injection Hw as -> ->. }
  split.
  { unfold inFlight in *. cbn [workers].
    pose proof (Permutation_length (awaited_insert _ _ _ w Hi)) as Hp.
    rewrite length_app in Hp |- *. cbn [length] in Hp. lia. }
  split; [by rewrite Hcalls', Hcalls, app_assoc|].
  split; [rewrite map_app; by apply sublist_app|].
  split; [|by rewrite length_insert].
  intros j Hj. destruct (hairstyleQueue run) as [|h2 q] eqn:Eq;
    injection Hw as -> ->; [done|].
  destruct (decide (i = j)) as [->|Hne].
  - rewrite list_lookup_insert_eq in Hj; [done|by eapply lookup_lt_Some].
  - rewrite list_lookup_insert_ne in Hj by done. by apply Hfin in Hj.
Qed.

Lemma RunCore_step n s ev s' :
  RunCore hs c0 image gender r n s →
  step s ev = Some s' →
  RunCore hs c0 image gender r
    (if isOwnSettlement r ev then S n else n) s'.
Proof.
  intros Hcore Hstep. destruct (isOwnSettlement r ev) eqn:Hown.
  - destruct ev as [| | | | |r' i outcome|]; try done.
    simpl in Hown. apply bool_decide_eq_true in Hown as ->.
    by eapply RunCore_own.
  - by eapply RunCore_other.
Qed.

Lemma RunCore_exec evs : ∀ n s s',
  RunCore hs c0 image gender r n s →
  exec s evs = Some s' →
  RunCore hs c0 image gender r (n + ownSettlements r evs) s'.
Proof.
  induction evs as [|ev evs IH]; intros n s s' Hcore Hex; simpl in Hex.
  - injection Hex as <-. simpl. by rewrite Nat.add_0_r.
  - destruct (step s ev) as [s1|] eqn:Hstep; [|done].
    pose proof (RunCore_step _ _ _ _ Hcore Hstep) as Hcore1.
    specialize (IH _ _ _ Hcore1 Hex). simpl.
    destruct (isOwnSettlement r ev); [|done].
    by replace (n + S (ownSettlements r evs))%nat with (S n + ownSettlements r evs)%nat by lia.
Qed.

Lemma RunDone_step touched n s ev s' :
  RunCore hs c0 image gender r n s →
  RunDone touched hs r s →
  isRestart ev = false →
  (∀ h, retried ev = Some h → h ∈ touched) →
  step s ev = Some s' →
  RunDone touched hs r s'.
Proof.
  intros Hcore (run & Hrun & Hitems & Hset) Hev Hret Hstep.
  destruct (retried ev) as [h|] eqn:Hr.
  { destruct (step_retried s ev s' h Hr Hstep)
      as [->|(Hp & Hother & (op & Hop & Hops) & Hruns & Happ & Hld)].
    { by exists run. }
    exists run. split; [by rewrite Hruns|]. split; [|by rewrite Happ, Hld].
    intros h1 Hh1. destruct (decide (h1 = h)) as [->|Hne].
    - right; right; right. split; [by apply Hret|]. split; [done|].
      rewrite Hops, fmap_app. apply elem_of_app. right.
      simpl. rewrite Hop. apply list_elem_of_here.
    - rewrite (Hother h1 Hne).
      destruct (Hitems h1 Hh1) as [Hq|[Ha|[Hf|(Ht & Hp1 & Hin)]]];
        [by left|by right; left|by right; right; left|].
      right; right; right. split; [done|]. split; [done|].
      rewrite Hops, fmap_app. apply elem_of_app. by left. }
  assert (isSettlement ev = true) as Hsett by (by destruct ev).
  destruct (isOwnSettlement r ev) eqn:Hown.
  - destruct ev as [| | | | |r' i outcome|]; try done.
    simpl in Hown. apply bool_decide_eq_true in Hown as ->. simpl in Hstep.
    destruct (run_own_settlement _ _ _ _ _ Hcore Hstep)
      as (run1 & h & w & queue' & run' & Hrun1 & Hi & Hw & -> & Hrun' & Himgs & Hops
          & _ & Hs1 & _).
    rewrite Hrun in Hrun1. injection Hrun1 as <-.
    eexists. split; [exact Hrun'|]. cbn [hairstyleQueue workers]. split; [|exact Hs1].
    intros h1 Hh1. rewrite Himgs, Hops.
    destruct (Hitems h1 Hh1) as [Hq|[Ha|[Hf|(Ht & Hp1 & Hin)]]].
    + destruct (hairstyleQueue run) as [|h2 q]; injection Hw as -> ->;
        [by apply elem_of_nil in Hq|].
      apply elem_of_cons in Hq as [->|Hq]; [|by left].
      right; left. apply (awaited_lookup _ i).
      apply list_lookup_insert_eq. by eapply lookup_lt_Some.
    + destruct (decide (h1 = h)) as [->|Hne].
      * right; right; left. rewrite lookup_insert_eq. eexists. split; [done|].
        destruct outcome; simpl; auto.
      * right; left.
        assert (h1 ∈ h :: awaited (<[i:=w]> (workers run))) as Hin.
        { rewrite (awaited_insert _ _ _ w Hi). apply elem_of_app. by left. }
        apply elem_of_cons in Hin as [?|Hin]; done.
    + right; right; left. apply finished_insert; [|done]. destruct outcome; simpl; auto.
    + destruct (decide (h1 = h)) as [->|Hne].
      * right; right; left. rewrite lookup_insert_eq. eexists. split; [done|].
        destruct outcome; simpl; auto.
      * right; right; right. by rewrite lookup_insert_ne.
  - destruct (step_other_run r s ev s' run Hown Hstep Hrun) as [Hrun' _].
    destruct (step_settlement_items s ev s' Hsett Hstep)
      as [(h & item & Himgs & Hitem & Hops) Happ].
    exists run. split; [done|]. split.
    + intros h1 Hh1. rewrite Himgs.
      destruct (Hitems h1 Hh1) as [Hq|[Ha|[Hf|(Ht & Hp1 & Hin)]]];
        [by left|by right; left| |].
      * right; right; left. by apply finished_insert.
      * destruct (decide (h1 = h)) as [->|Hne].
        { right; right; left. rewrite lookup_insert_eq. by exists item. }
        right; right; right. split; [done|]. split; [by rewrite lookup_insert_ne|].
        destruct Hops as [->|(i & op & Hi & Hop & ->)]; [done|].
        apply list_elem_of_fmap in Hin as (op1 & -> & Hin).
        apply list_elem_of_fmap_2. apply (elem_of_delete_other _ _ _ op); [done|done|].
        intros ->. by apply Hne.
    + intros Hs. destruct (Hset Hs) as [Ha Hl].
      destruct Happ as [[-> ->]|[-> ->]]; done.
Qed.

Lemma RunDone_exec touched evs : ∀ n s s',
  RunCore hs c0 image gender r n s →
  RunDone touched hs r s →
  existsb isRestart evs = false →
  (∀ h, h ∈ omap retried evs → h ∈ touched) →
  exec s evs = Some s' →
  RunDone touched hs r s'.
Proof.
  induction evs as [|ev evs IH]; intros n s s' Hcore Hdone Hevs Hret Hex; simpl in *.
  - by injection Hex as <-.
  - apply orb_false_iff in Hevs as [Hev Hevs].
    destruct (step s ev) as [s1|] eqn:Hstep; [|done].
    eapply IH; [by eapply RunCore_step| |done| |done].
    + eapply RunDone_step; [done|done|done| |done].
      intros h Hh. apply Hret. rewrite Hh. apply list_elem_of_here.
    + intros h Hh. apply Hret. destruct (retried ev); [by apply list_elem_of_further|done].
Qed.

End RunAmongOthers.

Lemma RunCore_start touched s0 image gender :
  uploadedImage s0 = Some image → truthy image = true →
  RunCore (hairstylesFor gender) (calls s0) image gender (length (runs s0)) 0
    (handleGenerate gender s0)
  ∧ RunDone touched (hairstylesFor gender) (length (runs s0)) (handleGenerate gender s0).
Proof.
  intros Hup Himg.
  destruct (RunInv_start s0 image gender Hup Himg)
    as (run & pre & Hrun & Hi & Hg & Hhs & Hperm & Hcalls & _ & Hfin & Hlen & Hset).
  simpl in Hperm. split.
  - exists run, pre, (map (generateCall image gender) pre).
    repeat split; try done. unfold inFlight. by rewrite Hperm.
  - exists run. split; [done|]. split; [|done].
    intros h Hh. rewrite Hhs in Hh. apply elem_of_app in Hh as [Hh|Hh]; [|by left].
    right; left. by rewrite <- Hperm.
Qed.

Lemma own_settlements_schedule r evs :
  forallb (isOwnSettlement r) evs = true → ∃ sched, evs = runEvents r sched.
Proof.
  induction evs as [|ev evs IH]; simpl; [by exists []|].
  intros [Hev Hevs]%andb_true_iff. destruct (IH Hevs) as [sched ->].
  destruct ev as [| | | | |r' i outcome|]; try done.
  simpl in Hev. apply bool_decide_eq_true in Hev as ->.
  by exists ((i, outcome) :: sched).
Qed.

(** C3, as stated: whenever a run has settled, every label's item would
    be [Done] or [Error]. A retry of a finished item, called while the run
    goes on, resets that item to [Pending], and the run settles before the
    retry does. *)
Lemma run_settles_with_pending_counterexample :
  ¬ (∀ s0 image gender evs s' run,
       uploadedImage s0 = Some image → truthy image = true →
       exec (handleGenerate gender s0) evs = Some s' →
       runs s' !! length (runs s0) = Some run →
       settled run = true →
       Forall (fun h => ∃ it, generatedImages s' !! h = Some it
                              ∧ (status it = Done ∨ status it = Error))
         (hairstylesFor gender)).
Proof.
  intros H.
  set (s0 := imageLoaded photo initialApp).
  set (evs := [WorkerSettles 0 0 (Fulfilled picture1); Regenerate buzz;
               WorkerSettles 0 1 (Fulfilled picture1);
               WorkerSettles 0 0 (Fulfilled picture1);
               WorkerSettles 0 1 (Fulfilled picture1);
               WorkerSettles 0 0 (Fulfilled picture1);
               WorkerSettles 0 1 (Fulfilled picture1)]).
  destruct (exec (handleGenerate (js "masculino") s0) evs) as [s'|] eqn:Hex;
    [|vm_compute in Hex; discriminate Hex].
  destruct (runs s' !! 0%nat) as [run|] eqn:Hrun;
    [|vm_compute in Hex; injection Hex as <-; vm_compute in Hrun; discriminate Hrun].
  assert (settled run = true) as Hs.
  { vm_compute in Hex. injection Hex as <-. vm_compute in Hrun. by injection Hrun as <-. }
  pose proof (H s0 photo (js "masculino") evs s' run eq_refl eq_refl Hex Hrun Hs) as Hall.
  change (hairstylesFor (js "masculino")) with (buzz :: tail MALE_HAIRSTYLES) in Hall.
  apply Forall_inv in Hall. destruct Hall as (it & Hit & Hst).
  vm_compute in Hex. injection Hex as <-. vm_compute in Hit. injection Hit as <-.
  destruct Hst as [Hst|Hst]; discriminate Hst.
Qed.

(** C3, amended. A run started by [handleGenerate] with an uploaded image,
    followed through any events, its own settlements and whatever else
    happens meanwhile. The labels taken from the queue are a prefix of the
    category's label list, without repetition: each is in flight or has
    settled, and the call of each is in the log, in that order (and the
    run's part of the log is exactly these calls when nothing else
    happened). A generation of the run that fails is written as an [Error]
    item with the message, and its worker goes on with the queue, the
    other workers being untouched. The run settles after exactly as many
    settlements as there are labels, every label having been attempted;
    until then some worker is in flight. When the run has settled, and
    unless an upload, a new run or a reset has replaced the items since it
    started, the results are shown and the item of every label is [Done]
    or [Error], except for a label whose retry or remix was called since
    the run started: its item can be [Pending], with that retry or remix
    in flight. *)
Theorem handleGenerate_run_among_others :
  ∀ s0 image gender evs s',
    uploadedImage s0 = Some image → truthy image = true →
    let hs := hairstylesFor gender in
    let r := length (runs s0) in
    exec (handleGenerate gender s0) evs = Some s' →
    ∃ run attempted issued,
      runs s' !! r = Some run
      ∧ hs = attempted ++ hairstyleQueue run
      ∧ NoDup attempted
      ∧ length attempted = (ownSettlements r evs + inFlight run)%nat
      ∧ calls s' = calls s0 ++ issued
      ∧ map (generateCall image gender) attempted `sublist_of` issued
      ∧ (if forallb (isOwnSettlement r) evs
         then issued = map (generateCall image gender) attempted
         else True)
      ∧ (∀ i e,
           match workers run !! i with
           | Some (Awaiting h) =>
               ∃ s'' run'',
                 step s' (WorkerSettles r i (Rejected e)) = Some s''
                 ∧ generatedImages s''
                   = <[h := errorImage (itemErrorMessage e)]> (generatedImages s')
                 ∧ runs s'' !! r = Some run''
                 ∧ workers run'' = <[i := (workerLoop (hairstyleQueue run)).1]> (workers run)
                 ∧ hairstyleQueue run'' = (workerLoop (hairstyleQueue run)).2
           | _ => step s' (WorkerSettles r i (Rejected e)) = None
           end)
      ∧ (ownSettlements r evs ≤ length hs)%nat
      ∧ (if settled run
         then ownSettlements r evs = length hs
              ∧ attempted = hs
              ∧ (if existsb isRestart evs then True
                 else appState s' = results_shown ∧ isLoading s' = false
                      ∧ Forall (fun h =>
                                  (∃ it, generatedImages s' !! h = Some it
                                         ∧ (status it = Done ∨ status it = Error))
                                  ∨ (h ∈ omap retried evs
                                     ∧ isPending (generatedImages s' !! h) = true
                                     ∧ h ∈ oneOffLabel <$> oneOffs s')) hs)
         else (ownSettlements r evs < length hs)%nat
              ∧ ∃ i h, workers run !! i = Some (Awaiting h)).
Proof.
  intros s0 image gender evs s' Hup Himg hs r Hex.
  pose proof (hairstylesFor_truthy gender : forallb truthy hs = true) as Htr.
  pose proof (hairstylesFor_NoDup gender : NoDup hs) as Hnd.
  destruct (RunCore_start (omap retried evs) s0 image gender Hup Himg) as [Hcore0 Hdone0].
  fold hs r in Hcore0, Hdone0.
  pose proof (RunCore_exec hs (calls s0) image gender r Htr evs 0 _ _ Hcore0 Hex) as Hcore.
  simpl in Hcore.
  destruct Hcore as (run & pre & issued & Hrun & Hi & Hg & Hhs & Hlen & Hcalls & Hsub
                     & Hfin & Hws).
  assert (length hs = (length pre + length (hairstyleQueue run))%nat) as Hlhs.
  { by rewrite Hhs at 1; rewrite length_app. }
  exists run, pre, issued.
  split; [done|]. split; [done|].
  split. { rewrite Hhs in Hnd. by apply NoDup_app in Hnd as [? _]. }
  split; [done|]. split; [done|]. split; [done|].
  split.
  { destruct (forallb (isOwnSettlement r) evs) eqn:Hown; [|done].
    destruct (own_settlements_schedule r evs Hown) as [sched ->].
    pose proof (RunInv_start s0 image gender Hup Himg) as Hstart.
    fold hs r in Hstart.
    destruct (RunInv_exec hs (calls s0) image gender r Htr Hnd sched [] _ _ Hstart Hex)
      as (D & (run1 & pre1 & Hrun1 & _ & _ & Hhs1 & _ & Hcalls1 & _) & _).
    rewrite Hrun in Hrun1. injection Hrun1 as <-.
    rewrite Hhs1 in Hhs. apply app_inv_tail in Hhs as ->.
    rewrite Hcalls in Hcalls1. by apply app_inv_head in Hcalls1. }
  split.
  { intros i e. destruct (workers run !! i) as [[h|]|] eqn:Hw.
    - by apply workerSettles_rejected.
    - simpl. unfold workerSettles. by rewrite Hrun, Hw.
    - simpl. unfold workerSettles. by rewrite Hrun, Hw. }
  split; [lia|].
  destruct (settled run) eqn:Hs.
  - unfold settled in Hs.
    assert (awaited (workers run) = []) as Haw by (by apply settled_awaited).
    assert (hairstyleQueue run = []) as Hq.
    { destruct (workers run) as [|w ws] eqn:Hwse; [done|].
      apply (Hfin 0%nat). simpl in Hs. by destruct w. }
    unfold inFlight in Hlen. rewrite Haw in Hlen. simpl in Hlen.
    rewrite Hq in Hlhs. simpl in Hlhs.
    split; [lia|]. split; [by rewrite Hhs, Hq, app_nil_r|].
    destruct (existsb isRestart evs) eqn:Hrest; [done|].
    destruct (RunDone_exec hs (calls s0) image gender r Htr (omap retried evs) evs 0 _ _
                Hcore0 Hdone0 Hrest (fun h Hh => Hh) Hex) as (run1 & Hrun1 & Hitems & Hset).
    rewrite Hrun in Hrun1. injection Hrun1 as <-.
    destruct (Hset Hs) as [-> ->]. split; [done|]. split; [done|].
    apply Forall_forall. intros h Hh.
    destruct (Hitems h Hh) as [Hin|[Hin|[Hf|Hp]]]; [| |by left|by right].
    + rewrite Hq in Hin. by apply elem_of_nil in Hin.
    + rewrite Haw in Hin. by apply elem_of_nil in Hin.
  - destruct (not_settled_awaiting _ Hs) as (i & h & Hw).
    split; [|by exists i, h].
    assert (0 < inFlight run)%nat; [|lia].
    unfold inFlight. apply awaited_lookup in Hw.
    destruct (awaited (workers run)); [by apply elem_of_nil in Hw|simpl; lia].
Qed.

Lemma handleGenerate_run_among_others_witness :
  let evs := [WorkerSettles 0 0 (Fulfilled picture1); Regenerate buzz;
              WorkerSettles 0 1 (Fulfilled picture1);
              Remix undercut (js "mais curto");
              OneOffSettles 1 (Fulfilled picture2);
              WorkerSettles 0 0 (Rejected internalFault);
              WorkerSettles 0 1 (Fulfilled picture1);
              WorkerSettles 0 0 (Fulfilled picture1);
              WorkerSettles 0 1 (Fulfilled picture1)] in
  ∃ s' run,
    exec (handleGenerate (js "masculino") (imageLoaded photo initialApp)) evs = Some s'
    ∧ runs s' !! 0%nat = Some run
    ∧ settled run = true
    ∧ (∃ attempted, MALE_HAIRSTYLES = attempted ++ hairstyleQueue run ∧ NoDup attempted)
    ∧ appState s' = results_shown
    ∧ Forall (fun h =>
                (∃ it, generatedImages s' !! h = Some it
                       ∧ (status it = Done ∨ status it = Error))
                ∨ (h ∈ [buzz]
                   ∧ isPending (generatedImages s' !! h) = true
                   ∧ h ∈ oneOffLabel <$> oneOffs s')) MALE_HAIRSTYLES.
Proof.
  intros evs.
  destruct (exec (handleGenerate (js "masculino") (imageLoaded photo initialApp)) evs)
    as [s'|] eqn:Hex; [|vm_compute in Hex; discriminate Hex].
  destruct (handleGenerate_run_among_others (imageLoaded photo initialApp) photo
              (js "masculino") evs s' eq_refl eq_refl Hex)
    as (run & attempted & issued & Hrun & Hhs & Hnd & _ & _ & _ & _ & _ & _ & Hfinal).
  exists s', run. split; [reflexivity|]. split; [exact Hrun|].
  destruct (settled run).
  - destruct Hfinal as (_ & _ & Hitems).
    change (existsb isRestart evs) with false in Hitems.
    destruct Hitems as (Happ & _ & Hitems).
    split; [reflexivity|]. split; [exists attempted; split; [exact Hhs|exact Hnd]|].
    split; [exact Happ|].
    eapply Forall_impl; [exact Hitems|].
    intros h [Hf|(Hin & Hp & Hop)]; [left; exact Hf|right].
    split; [|split; [exact Hp|exact Hop]].
    change (omap retried evs) with [buzz; undercut] in Hin.
    apply elem_of_cons in Hin as [->|Hin]; [apply list_elem_of_here|].
    apply list_elem_of_singleton in Hin as ->.
    vm_compute in Hex. injection Hex as <-. vm_compute in Hp. discriminate Hp.
  - destruct Hfinal as [Hlt _]. vm_compute in Hlt. lia.
Defined.
